(** * gondola ORM: value scanner, reference resolver and query iterator

    A shallow embedding of the SQL value scanner of the gondola ORM
    ([simpleScanner], its [Scan] and [Put] methods and the [Scanner]
    constructor) over an explicit model of the Go values it touches
    through [reflect], together with the reference resolver, the join
    planner and the query iterator the ORM's reference tests exercise. *)

From Stdlib Require Import ZArith Lia Ascii.
From stdpp Require Import base option list sorting gmap strings.

Local Open Scope Z_scope.

(** ** Go values as seen through [reflect] *)

Module Go.

(** Widths of the signed integer kinds; [WInt] is the platform [int]. *)
Inductive IntWidth := W8 | W16 | W32 | W64 | WInt.

Definition bits (w : IntWidth) : Z :=
  match w with W8 => 8 | W16 => 16 | W32 => 32 | W64 => 64 | WInt => 64 end.

(** The static types a model field or a driver value can have. A named
    type carries its underlying type; [time.Time] is kept opaque. *)
Inductive GoType :=
| TBool
| TInt (w : IntWidth)
| TUint (w : IntWidth)
| TFloat64
| TString
| TBytes
| TTime
| TNamed (name : string) (under : GoType)
| TPtr (elem : GoType)
| TInterface.

Inductive Kind :=
| Bool | Int | Int8 | Int16 | Int32 | Int64
| Uint | Uint8 | Uint16 | Uint32 | Uint64
| Float64 | String | Slice | Struct | Ptr | Interface.

Fixpoint KindOf (t : GoType) : Kind :=
  match t with
  | TBool => Bool
  | TInt W8 => Int8 | TInt W16 => Int16 | TInt W32 => Int32
  | TInt W64 => Int64 | TInt WInt => Int
  | TUint W8 => Uint8 | TUint W16 => Uint16 | TUint W32 => Uint32
  | TUint W64 => Uint64 | TUint WInt => Uint
  | TFloat64 => Float64
  | TString => String
  | TBytes => Slice
  | TTime => Struct
  | TNamed _ u => KindOf u
  | TPtr _ => Ptr
  | TInterface => Interface
  end.

Global Instance IntWidth_eq_dec : EqDecision IntWidth.
Proof. solve_decision. Defined.
Global Instance GoType_eq_dec : EqDecision GoType.
Proof. solve_decision. Defined.
Global Instance Kind_eq_dec : EqDecision Kind.
Proof. solve_decision. Defined.

(** A byte slice is nil or a window into a backing array of the heap. *)
Record SliceHeader := { base : nat; off : nat; len : nat }.

Inductive ByteSlice :=
| NilSlice
| SliceOf (h : SliceHeader).

(** Instants are counted from the zero [time.Time]. *)
Definition Time := Z.

Inductive GoValue :=
| VBool (b : bool)
| VInt (w : IntWidth) (z : Z)
| VUint (w : IntWidth) (z : Z)
| VFloat64 (bits : Z)
| VString (s : string)
| VBytes (x : ByteSlice)
| VTime (t : Time)
| VNamed (name : string) (v : GoValue)
| VNilPtr (elem : GoType)
| VPtr (elem : GoType) (addr : nat)
| VNilIface
| VIface (dyn : GoValue).

Fixpoint TypeOf (v : GoValue) : GoType :=
  match v with
  | VBool _ => TBool
  | VInt w _ => TInt w
  | VUint w _ => TUint w
  | VFloat64 _ => TFloat64
  | VString _ => TString
  | VBytes _ => TBytes
  | VTime _ => TTime
  | VNamed n v => TNamed n (TypeOf v)
  | VNilPtr e => TPtr e
  | VPtr e _ => TPtr e
  | VNilIface => TInterface
  | VIface _ => TInterface
  end.

(** [reflect.Zero]. *)
Fixpoint Zero (t : GoType) : GoValue :=
  match t with
  | TBool => VBool false
  | TInt w => VInt w 0
  | TUint w => VUint w 0
  | TFloat64 => VFloat64 0
  | TString => VString ""
  | TBytes => VBytes NilSlice
  | TTime => VTime 0
  | TNamed n u => VNamed n (Zero u)
  | TPtr e => VNilPtr e
  | TInterface => VNilIface
  end.

(** Conversion of an [int64] to a signed integer of [w] bits. *)
Definition wrap (w : IntWidth) (x : Z) : Z :=
  (x + 2 ^ (bits w - 1)) mod 2 ^ bits w - 2 ^ (bits w - 1).

Definition is_named (t : GoType) : bool :=
  match t with TNamed _ _ | TTime => true | _ => false end.

Definition underlying (t : GoType) : GoType :=
  match t with TNamed _ u => u | _ => t end.

(** Assignability of a value of type [v] to a variable of type [t]:
    identical types, identical underlying types when one of the two is
    not named, or any value to the empty interface. *)
Definition AssignableTo (v t : GoType) : bool :=
  bool_decide (v = t)
  || (bool_decide (underlying v = underlying t)
      && negb (is_named v && is_named t))
  || bool_decide (t = TInterface).

(** The value stored in a variable of type [t] when [v] is assigned. *)
Definition assignTo (t : GoType) (v : GoValue) : GoValue :=
  if bool_decide (TypeOf v = t) then v
  else match t, v with
       | TInterface, _ => VIface v
       | TNamed n _, _ => VNamed n v
       | _, VNamed _ u => u
       | _, _ => v
       end.

Global Instance SliceHeader_eq_dec : EqDecision SliceHeader.
Proof. solve_decision. Defined.
Global Instance ByteSlice_eq_dec : EqDecision ByteSlice.
Proof. solve_decision. Defined.
Global Instance GoValue_eq_dec : EqDecision GoValue.
Proof. solve_decision. Defined.

(** The name the [%T] verb prints for a type. *)
Fixpoint TypeName (t : GoType) : string :=
  match t with
  | TBool => "bool"
  | TInt W8 => "int8" | TInt W16 => "int16" | TInt W32 => "int32"
  | TInt W64 => "int64" | TInt WInt => "int"
  | TUint W8 => "uint8" | TUint W16 => "uint16" | TUint W32 => "uint32"
  | TUint W64 => "uint64" | TUint WInt => "uint"
  | TFloat64 => "float64"
  | TString => "string"
  | TBytes => "[]uint8"
  | TTime => "time.Time"
  | TNamed n _ => n
  | TPtr e => "*" +:+ TypeName e
  | TInterface => "interface {}"
  end.

End Go.

(** ** Text helpers: [strings.HasPrefix] and [strings.Contains] *)

Module Text.

Fixpoint HasPrefix (s prefix : string) {struct prefix} : bool :=
  match prefix with
  | EmptyString => true
  | String c p =>
      match s with
      | EmptyString => false
      | String d s' => bool_decide (c = d) && HasPrefix s' p
      end
  end.

(** [strings.Contains s substr]. *)
Fixpoint Contains (s substr : string) {struct s} : bool :=
  HasPrefix s substr
  || match s with
     | EmptyString => false
     | String _ s' => Contains s' substr
     end.

End Text.

(** ** Outcomes of Go calls: a normal return or a run-time panic *)

Inductive Outcome (A : Type) :=
| Return (a : A)
| Panic.
Arguments Return {A} a.
Arguments Panic {A}.

Global Instance Outcome_bind : MBind Outcome := fun A B k o =>
  match o with
  | Return a => k a
  | Panic => Panic
  end.

(** ** Field tags *)

Module Driver.

(** Modelled from the spec: the declaration of [driver.Tag] (package
    [gondola/orm/driver]) is missing from the sources. Section 4.1: a
    tag is the explicit column name followed by the list of [key] or
    [key=value] options of one field annotation, and [Has] tells
    whether an option was given. *)
Record Tag := { Name : string; Options : list (string * string) }.

Definition Has (t : Tag) (opt : string) : bool :=
  bool_decide (opt ∈ (Options t).*1).

Definition Value (t : Tag) (opt : string) : option string :=
  snd <$> List.find (fun kv => bool_decide (kv.1 = opt)) (Options t).

End Driver.

(** ** The value scanner (package [sql]) *)

Module Sql.
Import Go Driver.

Record simpleScanner := { Out : nat; Tag : Driver.Tag }.

(** A buffered channel with its capacity, and the two non-blocking
    operations a [select] with a [default] branch performs on it. *)
Record Chan (A : Type) := { buf : list A; cap : nat }.
Arguments buf {A} c.
Arguments cap {A} c.

Definition make_chan {A} (n : nat) : Chan A := {| buf := []; cap := n |}.

Definition trySend {A} (c : Chan A) (x : A) : option (Chan A) :=
  if bool_decide (length (buf c) < cap c)%nat
  then Some {| buf := buf c ++ [x]; cap := cap c |}
  else None.

Definition tryRecv {A} (c : Chan A) : option (A * Chan A) :=
  match buf c with
  | [] => None
  | x :: rest => Some (x, {| buf := rest; cap := cap c |})
  end.

(** The memory the scanner works on: backing arrays of byte slices, the
    variables [reflect.Value]s address, the allocated scanners, and the
    package-level pool. Pointers are addresses; nil and dangling
    pointers are addresses outside the respective store. *)
Record State := {
  arrays : gmap nat (list Byte.byte);
  vars : gmap nat GoValue;
  objs : gmap nat simpleScanner;
  simpleScannerPool : Chan nat
}.

Definition init : State :=
  {| arrays := ∅; vars := ∅; objs := ∅; simpleScannerPool := make_chan 64 |}.

Definition set_arrays (st : State) a :=
  {| arrays := a; vars := vars st; objs := objs st;
     simpleScannerPool := simpleScannerPool st |}.
Definition set_vars (st : State) v :=
  {| arrays := arrays st; vars := v; objs := objs st;
     simpleScannerPool := simpleScannerPool st |}.
Definition set_objs (st : State) o :=
  {| arrays := arrays st; vars := vars st; objs := o;
     simpleScannerPool := simpleScannerPool st |}.
Definition set_pool (st : State) p :=
  {| arrays := arrays st; vars := vars st; objs := objs st;
     simpleScannerPool := p |}.

(** *** Byte slices *)

Definition slice_len (x : ByteSlice) : nat :=
  match x with NilSlice => 0%nat | SliceOf h => len h end.

Definition bytesOf (st : State) (x : ByteSlice) : list Byte.byte :=
  match x with
  | NilSlice => []
  | SliceOf h => take (len h) (drop (off h) (default [] (arrays st !! base h)))
  end.

Definition valid_slice (st : State) (x : ByteSlice) : Prop :=
  match x with
  | NilSlice => True
  | SliceOf h =>
      exists arr, arrays st !! base h = Some arr /\ (off h + len h <= length arr)%nat
  end.

(** [make([]byte, n)]: a fresh zeroed backing array. *)
Definition make_bytes (n : nat) (st : State) : ByteSlice * State :=
  let a := fresh (dom (arrays st)) in
  (SliceOf {| base := a; off := 0; len := n |},
   set_arrays st (<[a := replicate n Byte.x00]> (arrays st))).

(** [copy(dst, src)]: the first [min (len dst) (len src)] bytes. *)
Definition copy_bytes (dst src : ByteSlice) (st : State) : State :=
  match dst with
  | NilSlice => st
  | SliceOf d =>
      let n := (slice_len dst `min` slice_len src)%nat in
      let arr := default [] (arrays st !! base d) in
      set_arrays st
        (<[base d := take (off d) arr ++ take n (bytesOf st src)
                       ++ drop (off d + n) arr]> (arrays st))
  end.

(** *** The [reflect.Value] setters used by [Scan] *)

Definition withType (t : GoType) (u : GoValue) : GoValue :=
  match t with TNamed n _ => VNamed n u | _ => u end.

Definition intWidth (k : Kind) : option IntWidth :=
  match k with
  | Int => Some WInt | Int8 => Some W8 | Int16 => Some W16
  | Int32 => Some W32 | Int64 => Some W64
  | _ => None
  end.

Definition Set_ (out : nat) (v : GoValue) (st : State) : Outcome State :=
  match vars st !! out with
  | None => Panic
  | Some cur =>
      if AssignableTo (TypeOf v) (TypeOf cur)
      then Return (set_vars st (<[out := assignTo (TypeOf cur) v]> (vars st)))
      else Panic
  end.

Definition SetInt (out : nat) (x : Z) (st : State) : Outcome State :=
  match vars st !! out with
  | None => Panic
  | Some cur =>
      match intWidth (KindOf (TypeOf cur)) with
      | Some w =>
          Return (set_vars st
                    (<[out := withType (TypeOf cur) (VInt w (wrap w x))]> (vars st)))
      | None => Panic
      end
  end.

Definition SetBool (out : nat) (x : bool) (st : State) : Outcome State :=
  match vars st !! out with
  | None => Panic
  | Some cur =>
      if bool_decide (KindOf (TypeOf cur) = Bool)
      then Return (set_vars st (<[out := withType (TypeOf cur) (VBool x)]> (vars st)))
      else Panic
  end.

Definition SetString (out : nat) (x : string) (st : State) : Outcome State :=
  match vars st !! out with
  | None => Panic
  | Some cur =>
      if bool_decide (KindOf (TypeOf cur) = String)
      then Return (set_vars st (<[out := withType (TypeOf cur) (VString x)]> (vars st)))
      else Panic
  end.

(** *** [simpleScanner] *)

Section Scanner.

(** The text the [%v] verb of [fmt] prints for a value. *)
Variable Sprint : GoValue -> string.

Definition cantScan (src : GoValue) : string :=
  "can't scan value " +:+ (Sprint src +:+ (" (" +:+ (TypeName (TypeOf src) +:+ ")"))).

(** The dereference [*s.Out] of the receiver [s]. *)
Definition deref (s : nat) (st : State) : Outcome (simpleScanner * GoValue) :=
  match objs st !! s with
  | None => Panic
  | Some sc =>
      match vars st !! Out sc with
      | None => Panic
      | Some cur => Return (sc, cur)
      end
  end.

Definition Scan (s : nat) (src : option GoValue) (st : State)
  : Outcome (option string * State) :=
  match src with
  | None =>
      '(sc, cur) ← deref s st;
      st' ← Set_ (Out sc) (Zero (TypeOf cur)) st;
      Return (None, st')
  | Some (VInt W64 x) =>
      '(sc, _) ← deref s st;
      st' ← SetInt (Out sc) x st;
      Return (None, st')
  | Some (VBool x) =>
      '(sc, _) ← deref s st;
      st' ← SetBool (Out sc) x st;
      Return (None, st')
  | Some (VBytes x) =>
      '(sc, cur) ← deref s st;
      st' ← (if bool_decide (KindOf (TypeOf cur) = String)
             then SetString (Out sc) (String.string_of_list_byte (bytesOf st x)) st
             else if bool_decide (0 < slice_len x)%nat
                  then if negb (Has (Tag sc) "raw")
                       then let '(b, st1) := make_bytes (slice_len x) st in
                            let st2 := copy_bytes b x st1 in
                            Set_ (Out sc) (VBytes b) st2
                       else Set_ (Out sc) (VBytes x) st
                  else Set_ (Out sc) (VBytes NilSlice) st);
      Return (None, st')
  | Some (VString x) =>
      '(sc, _) ← deref s st;
      st' ← SetString (Out sc) x st;
      Return (None, st')
  | Some (VTime x) =>
      '(sc, _) ← deref s st;
      st' ← Set_ (Out sc) (VTime x) st;
      Return (None, st')
  | Some v => Return (Some (cantScan v), st)
  end.

End Scanner.

Definition Put (s : nat) (st : State) : State :=
  match trySend (simpleScannerPool st) s with
  | Some c => set_pool st c
  | None => st
  end.

Definition Scanner (val : nat) (tag : Driver.Tag) (st : State) : Outcome (nat * State) :=
  match tryRecv (simpleScannerPool st) with
  | Some (s, c) =>
      let st1 := set_pool st c in
      match objs st1 !! s with
      | None => Panic
      | Some _ =>
          Return (s, set_objs st1 (<[s := {| Out := val; Tag := tag |}]> (objs st1)))
      end
  | None =>
      let s := fresh (dom (objs st)) in
      Return (s, set_objs st (<[s := {| Out := val; Tag := tag |}]> (objs st)))
  end.

(** The dynamic types [Scan] has a case for; [None] is the nil
    interface. *)
Definition scannable : list (option GoType) :=
  [None; Some (TInt W64); Some TBool; Some TBytes; Some TString; Some TTime].

Definition dynType (src : option GoValue) : option GoType := TypeOf <$> src.

(** The pool invariant: capacity 64, never more than 64 scanners
    waiting, and every waiting pointer is an allocated scanner. *)
Definition pool_ok (st : State) : Prop :=
  cap (simpleScannerPool st) = 64%nat
  /\ (length (buf (simpleScannerPool st)) <= 64)%nat
  /\ Forall (fun s => is_Some (objs st !! s)) (buf (simpleScannerPool st)).

(** *** A small concrete state

    One [int32] variable at address 1, one [[]byte] variable at 2, one
    string variable at 3, a three-byte array at 5, and two scanners: 7
    writes to variable 1 and 8, tagged [raw], to variable 2. *)
Definition noTag : Driver.Tag := {| Name := ""; Options := [] |}.
Definition rawTag : Driver.Tag := {| Name := ""; Options := [("raw", "")] |}.

Definition demo : State :=
  {| arrays := {[ 5%nat := [Byte.x61; Byte.x62; Byte.x63] ]};
     vars := {[ 1%nat := VInt W32 7; 2%nat := VBytes NilSlice; 3%nat := VString "x" ]};
     objs := {[ 7%nat := {| Out := 1; Tag := noTag |};
                8%nat := {| Out := 2; Tag := rawTag |} ]};
     simpleScannerPool := make_chan 64 |}.

Definition demoSlice : ByteSlice := SliceOf {| base := 5; off := 1; len := 2 |}.

End Sql.

(** ** The ORM core (package [orm]): registry and reference resolver *)

Module Orm.
Import Go Driver.

(** Cuts [s] at the first occurrence of [c]: the text before it and,
    when [c] occurs, the text after it. *)
Fixpoint cut (c : Ascii.ascii) (s : string) : string * option string :=
  match s with
  | EmptyString => (EmptyString, None)
  | String.String d s' =>
      if bool_decide (c = d) then (EmptyString, Some s')
      else let '(a, b) := cut c s' in (String.String d a, b)
  end.

(** *** Data model *)

(** Modelled from the spec: the model descriptors are missing from the
    sources. Section 3: a model has a name, a table name and an ordered
    list of fields, each with a name, a type and a tag; the references
    of a model are the [references] options of its fields. *)
Record Field := { FieldName : string; FieldType : GoType; FieldTag : Driver.Tag }.

Record Model := { ModelName : string; TableName : string; Fields : list Field }.

(** The [references=Target] or [references=Target(Field)] option. *)
Record Reference := { RefModel : string; RefField : option string }.

Definition parseReference (v : string) : Reference :=
  let '(m, rest) := cut "("%char v in
  {| RefModel := m; RefField := (fun r => fst (cut ")"%char r)) <$> rest |}.

Definition referenceOf (f : Field) : option Reference :=
  parseReference <$> Value (FieldTag f) "references".

Definition primaryKey (m : Model) : option Field :=
  List.find (fun f => Has (FieldTag f) "primary_key") (Fields m).

Definition lookupField (m : Model) (name : string) : option Field :=
  List.find (fun f => bool_decide (FieldName f = name)) (Fields m).

Definition lookupModel (ms : list Model) (name : string) : option Model :=
  List.find (fun m => bool_decide (ModelName m = name)) ms.

(** A resolved reference: an edge from the referencing model to the
    referenced one, with the two fields it equates. *)
Record Edge := { From : string; FromField : string; To : string; ToField : string }.

(** *** Errors *)

Inductive Error :=
| ErrDuplicatePrimaryKey (model : string)
| ErrFrozen (model : string)
| ErrMissingModel (model field target : string)
| ErrMissingField (model field target : string) (targetField : option string)
| ErrTypeMismatch (tfield tmodel : string) (ttype : GoType)
                  (sfield smodel : string) (stype : GoType)
| ErrCycle (models : list string)
| ErrNoModel (type : string)
| errUntypedNilPointer
| ErrNoReference (a b : string)
| ErrAmbiguousJoin (a b : string)
| ErrAmbiguousField (name : string)
| ErrUnknownField (name : string)
| ErrUnknownTable (name : string)
| ErrDestinations (expected got : nat)
| ErrDestinationType (expected got : string).



Inductive Result (A : Type) :=
| Ok (a : A)
| Err (e : Error).
Arguments Ok {A} a.
Arguments Err {A} e.

Global Instance Result_bind : MBind Result := fun A B k r =>
  match r with
  | Ok a => k a
  | Err e => Err e
  end.

Fixpoint mapM {A B} (f : A -> Result B) (l : list A) : Result (list B) :=
  match l with
  | [] => Ok []
  | x :: xs => y ← f x; ys ← mapM f xs; Ok (y :: ys)
  end.

(** *** Registry *)

(** Modelled from the spec: the registry [Orm] is missing from the
    sources. Section 3 and 4.4: the registered models in registration
    order, the resolved references, the table-creation order, and
    whether [Initialize] has completed. *)
Record Orm := {
  Models : list Model;
  References : list Edge;
  CreationOrder : list string;
  Initialized : bool
}.

Definition New : Orm :=
  {| Models := []; References := []; CreationOrder := []; Initialized := false |}.

(** Modelled from the spec: [Register] is missing from the sources.
    Section 4.3: registration is additive, keeps the models in
    registration order, rejects a model with two primary keys and,
    section 4.4, any registration after [Initialize] has completed; it
    does not look at references. *)
Definition Register (o : Orm) (m : Model) : Result Orm :=
  if Initialized o then Err (ErrFrozen (ModelName m))
  else if bool_decide
            (1 < length (filter (fun f => Has (FieldTag f) "primary_key" = true) (Fields m)))%nat
       then Err (ErrDuplicatePrimaryKey (ModelName m))
       else Ok {| Models := Models o ++ [m]; References := References o;
                  CreationOrder := CreationOrder o; Initialized := false |}.

Fixpoint RegisterAll (o : Orm) (ms : list Model) : Result Orm :=
  match ms with
  | [] => Ok o
  | m :: rest =>
      match Register o m with
      | Err e => Err e
      | Ok o' => RegisterAll o' rest
      end
  end.

(** *** Reference resolver *)

Definition targetField (t : Model) (r : Reference) : option Field :=
  match RefField r with
  | Some n => lookupField t n
  | None => primaryKey t
  end.

(** Modelled from the spec: the resolution of a reference is missing
    from the sources. Section 4.4, steps 1 and 4: the target model is
    looked up by name and the target field is the explicit one or the
    primary key of the target; a missing target model or field is an
    error naming the reference, and fields of different underlying
    types are a type-mismatch error naming both fields. *)
Definition resolveField (ms : list Model) (m : Model) (f : Field)
  : Result (option Edge) :=
  match referenceOf f with
  | None => Ok None
  | Some r =>
      match lookupModel ms (RefModel r) with
      | None => Err (ErrMissingModel (ModelName m) (FieldName f) (RefModel r))
      | Some t =>
          match targetField t r with
          | None =>
              Err (ErrMissingField (ModelName m) (FieldName f) (RefModel r) (RefField r))
          | Some tf =>
              if bool_decide (underlying (FieldType f) = underlying (FieldType tf))
              then Ok (Some {| From := ModelName m; FromField := FieldName f;
                               To := ModelName t; ToField := FieldName tf |})
              else Err (ErrTypeMismatch (FieldName tf) (ModelName t) (FieldType tf)
                                        (FieldName f) (ModelName m) (FieldType f))
          end
      end
  end.

(** Every field of every model, in registration and declaration order. *)
Definition allFields (ms : list Model) : list (Model * Field) :=
  m ← ms; (fun f => (m, f)) <$> Fields m.

Definition resolveAll (ms : list Model) : Result (list Edge) :=
  match mapM (fun mf => resolveField ms mf.1 mf.2) (allFields ms) with
  | Ok es => Ok (omap id es)
  | Err e => Err e
  end.

(** A model can be created once every other model it references has
    been. *)
Definition ready (edges : list Edge) (done : list string) (m : string) : bool :=
  forallb (fun e => bool_decide (From e = m -> To e <> m -> To e ∈ done)) edges.

(** Modelled from the spec: the topological sort is missing from the
    sources. Section 4.4, step 3, with the first-registered-first rule
    of section 9: repeatedly the first pending model whose referenced
    models, itself apart, are all created is moved to the end of the
    order; when none is, the references form a cycle. *)
Fixpoint sortModels (fuel : nat) (edges : list Edge) (pending done : list string)
  : Result (list string) :=
  match pending with
  | [] => Ok done
  | _ :: _ =>
      match fuel with
      | O => Err (ErrCycle pending)
      | S fuel' =>
          match List.find (ready edges done) pending with
          | None => Err (ErrCycle pending)
          | Some m =>
              sortModels fuel' edges
                (filter (fun x => x <> m) pending) (done ++ [m])
          end
      end
  end.

(** Modelled from the spec: [Initialize] is missing from the sources;
    [references_test.go] calls it. Section 4.4: every reference is
    resolved, the first failure in registration and declaration order
    being the error of [Initialize]; the resolved references are the
    edges of the graph, which is sorted into the table-creation order;
    the registry is then frozen. *)
Definition Initialize (o : Orm) : Result Orm :=
  match resolveAll (Models o) with
  | Err e => Err e
  | Ok edges =>
      match sortModels (length (Models o)) edges (ModelName <$> Models o) [] with
      | Err e => Err e
      | Ok order =>
          Ok {| Models := Models o; References := edges; CreationOrder := order;
                Initialized := true |}
      end
  end.

(** *** The reference graph of a registry, declaratively *)

(** [refersTo ms a b]: some field of model [a] carries a [references]
    tag naming model [b]. *)
Definition refersTo (ms : list Model) (a b : string) : Prop :=
  exists m f r,
    m ∈ ms /\ f ∈ Fields m /\ referenceOf f = Some r
    /\ ModelName m = a /\ RefModel r = b.

Definition acyclic (R : relation string) : Prop := forall a, ~ tc R a a.

(** [depends edges a b]: an edge leads from [a] to another model [b]. *)
Definition depends (edges : list Edge) (a b : string) : Prop :=
  Exists (fun e => From e = a /\ To e = b /\ a <> b) edges.

Global Instance depends_dec edges : RelDecision (depends edges).
Proof. intros a b. unfold depends. apply _. Defined.

(** Every reference names a registered model and a field of it whose
    underlying type is that of the referencing field. *)
Definition resolvable (ms : list Model) : Prop :=
  forall m f r,
    m ∈ ms -> f ∈ Fields m -> referenceOf f = Some r ->
    exists t tf,
      lookupModel ms (RefModel r) = Some t /\ targetField t r = Some tf
      /\ underlying (FieldType f) = underlying (FieldType tf).

(** [before b a l]: [b] occurs in [l] at a position strictly before an
    occurrence of [a]. *)
Definition before (b a : string) (l : list string) : Prop :=
  exists l1 l2 l3, l = l1 ++ b :: l2 ++ a :: l3.

(** *** The models of the reference tests *)

Definition tag (opts : list (string * string)) : Driver.Tag :=
  {| Name := ""; Options := opts |}.

Definition Timestamp : Model :=
  {| ModelName := "Timestamp"; TableName := "test_references_timestamp";
     Fields := [ {| FieldName := "Id"; FieldType := TInt W64;
                    FieldTag := tag [("primary_key", ""); ("auto_increment", "")] |};
                 {| FieldName := "Timestamp"; FieldType := TTime; FieldTag := tag [] |} ] |}.

Definition BadEvent : Model :=
  {| ModelName := "BadEvent"; TableName := "test_references_bad_event";
     Fields := [ {| FieldName := "Timestamp"; FieldType := TInt WInt;
                    FieldTag := tag [("references", "Timestamp")] |};
                 {| FieldName := "Name"; FieldType := TString; FieldTag := tag [] |} ] |}.

Definition Event : Model :=
  {| ModelName := "Event"; TableName := "test_references_event";
     Fields := [ {| FieldName := "Id"; FieldType := TInt W64;
                    FieldTag := tag [("primary_key", ""); ("auto_increment", "")] |};
                 {| FieldName := "Timestamp"; FieldType := TInt W64;
                    FieldTag := tag [("references", "Timestamp")] |};
                 {| FieldName := "Name"; FieldType := TString; FieldTag := tag [] |} ] |}.

Definition TimedEvent : Model :=
  {| ModelName := "TimedEvent"; TableName := "test_references_timed_event";
     Fields := [ {| FieldName := "Id"; FieldType := TInt W64;
                    FieldTag := tag [("primary_key", ""); ("auto_increment", "")] |};
                 {| FieldName := "Start"; FieldType := TInt W64;
                    FieldTag := tag [("references", "Timestamp(Id)")] |};
                 {| FieldName := "End"; FieldType := TInt W64;
                    FieldTag := tag [("references", "Timestamp")] |};
                 {| FieldName := "Name"; FieldType := TString; FieldTag := tag [] |} ] |}.


Definition registry (ms : list Model) : Orm :=
  {| Models := ms; References := []; CreationOrder := []; Initialized := false |}.

End Orm.

(** ** The ORM core (package [orm]): join planner and query iterator *)

Module Iteration.
Import Go Driver Orm.

(** Modelled from the spec: the join planner, the query and the
    iterator ([Table], [Join], [Skip], [Query], [Iter], [Next], [Err])
    are missing from the sources; [references_test.go] calls them. The
    definitions follow sections 3, 4.5 and 4.6 of the spec and the
    calls and expectations of [testReferences]. The backend is an
    in-memory store that always answers, with the relational meaning
    of inner and left joins; scanning a column into a field is left to
    the value scanner, and a populated destination is shown as the row
    it was filled from. *)

Inductive JoinType := InnerJoin | LeftJoin.

(** A join condition: field [OnLeftField] of the table at position
    [OnLeft] of the expression equals field [OnRightField] of the
    joined table. *)
Record JoinOn := { OnLeft : nat; OnLeftField : string; OnRightField : string }.

Record TableRef := {
  TModel : Model;
  TSkip : bool;
  TJoin : JoinType;
  TOn : option JoinOn
}.

(** A table expression: the base table followed by the joined ones. *)
Definition Table := list TableRef.

Definition TableOf (m : Model) : Table :=
  [{| TModel := m; TSkip := false; TJoin := InnerJoin; TOn := None |}].


(** *** Join planner (spec 4.5) *)

(** The references between [m] and the table at position [i], in
    either direction. *)
Definition candidatesAt (edges : list Edge) (i : nat) (l m : Model) : list JoinOn :=
  omap (fun e =>
          if bool_decide (From e = ModelName m /\ To e = ModelName l)
          then Some {| OnLeft := i; OnLeftField := ToField e; OnRightField := FromField e |}
          else if bool_decide (From e = ModelName l /\ To e = ModelName m)
               then Some {| OnLeft := i; OnLeftField := FromField e; OnRightField := ToField e |}
               else None) edges.

Definition candidates (edges : list Edge) (ts : list Model) (m : Model) : list JoinOn :=
  mjoin (imap (fun i l => candidatesAt edges i l m) ts).

(** Modelled from the spec: the implicit join condition. Section 4.5:
    the unique reference between the joined model and the tables of
    the expression; none and more than one are errors. *)
Definition findJoin (edges : list Edge) (ts : list Model) (m : Model) : Result JoinOn :=
  match candidates edges ts m with
  | [] => Err (ErrNoReference (default "" (ModelName <$> head ts)) (ModelName m))
  | [c] => Ok c
  | _ :: _ :: _ => Err (ErrAmbiguousJoin (default "" (ModelName <$> head ts)) (ModelName m))
  end.

Definition Join (o : Orm) (t : Table) (m : Model) (cond : option JoinOn) (jt : JoinType)
  : Result Table :=
  match (match cond with
         | Some c => Ok c
         | None => findJoin (References o) (TModel <$> t) m
         end) with
  | Err e => Err e
  | Ok c => Ok (t ++ [{| TModel := m; TSkip := false; TJoin := jt; TOn := Some c |}])
  end.

(** *** Queries *)

(** [Eq(field, value)]. *)
Record Cond := { CField : string; CValue : GoValue }.

Inductive Direction := ASC | DESC.

Record Q := {
  Filter : list Cond;
  SortBy : list (string * Direction);
  QTable : option Table;
  QJoin : JoinType
}.

Definition Query (conds : list Cond) : Q :=
  {| Filter := conds; SortBy := []; QTable := None; QJoin := InnerJoin |}.

Definition Sort (q : Q) (field : string) (d : Direction) : Q :=
  {| Filter := Filter q; SortBy := SortBy q ++ [(field, d)];
     QTable := QTable q; QJoin := QJoin q |}.

Definition WithTable (q : Q) (t : Table) : Q :=
  {| Filter := Filter q; SortBy := SortBy q; QTable := Some t; QJoin := QJoin q |}.

Definition WithJoin (q : Q) (jt : JoinType) : Q :=
  {| Filter := Filter q; SortBy := SortBy q; QTable := QTable q; QJoin := jt |}.

(** The field names a query mentions, filter first. *)
Definition names (q : Q) : list string := (CField <$> Filter q) ++ (SortBy q).*1.

(** *** Column resolution (spec 4.6) *)

Record Column := { ColTable : nat; ColField : nat }.

Definition fieldIndex (m : Model) (name : string) : option nat :=
  fst <$> list_find (fun f => FieldName f = name) (Fields m).

Definition modelIndex (ts : list Model) (name : string) : option (nat * Model) :=
  list_find (fun m => ModelName m = name) ts.

(** The columns an unqualified name can stand for. *)
Definition columnsNamed (ts : list Model) (name : string) : list Column :=
  omap id (imap (fun i m => (fun j => {| ColTable := i; ColField := j |})
                              <$> fieldIndex m name) ts).

(** Modelled from the spec: the column a filter or sort name stands
    for. Section 4.6: a [Table|Field] name is looked up in that table;
    an unqualified name must belong to exactly one table of the
    expression, and is ambiguous when several tables have it. *)
Definition resolveName (ts : list Model) (name : string) : Result Column :=
  match cut "|"%char name with
  | (tn, Some fn) =>
      match modelIndex ts tn with
      | None => Err (ErrUnknownTable tn)
      | Some (i, m) =>
          match fieldIndex m fn with
          | None => Err (ErrUnknownField name)
          | Some j => Ok {| ColTable := i; ColField := j |}
          end
      end
  | (_, None) =>
      match columnsNamed ts name with
      | [] => Err (ErrUnknownField name)
      | [c] => Ok c
      | _ :: _ :: _ => Err (ErrAmbiguousField name)
      end
  end.

(** *** The backend: rows, joins, filters and sorting *)

Definition Row := list GoValue.

(** The rows of each table, by table name. *)
Definition DB := gmap string (list Row).

Definition rowsOf (db : DB) (m : Model) : list Row := default [] (db !! TableName m).

(** One result row: for every table of the expression its row, or
    [None] where an outer join found no match. *)
Definition JoinedRow := list (option Row).

Definition fieldValue (m : Model) (r : Row) (name : string) : option GoValue :=
  fieldIndex m name ≫= fun j => r !! j.

Definition onMatches (ts : list Model) (jr : JoinedRow) (t : TableRef) (r : Row) : bool :=
  match TOn t with
  | None => true
  | Some c =>
      match ts !! OnLeft c, jr !! OnLeft c with
      | Some lm, Some (Some lr) =>
          match fieldValue lm lr (OnLeftField c), fieldValue (TModel t) r (OnRightField c) with
          | Some a, Some b => bool_decide (a = b)
          | _, _ => false
          end
      | _, _ => false
      end
  end.

Definition matching (db : DB) (ts : list Model) (jr : JoinedRow) (t : TableRef) : list Row :=
  List.filter (onMatches ts jr t) (rowsOf db (TModel t)).

Definition extend (db : DB) (ts : list Model) (t : TableRef) (jr : JoinedRow)
  : list JoinedRow :=
  match TJoin t, matching db ts jr t with
  | LeftJoin, [] => [jr ++ [None]]
  | _, rs => (fun r => jr ++ [Some r]) <$> rs
  end.

Definition joinStep (db : DB) (ts : list Model) (acc : list JoinedRow) (t : TableRef)
  : list JoinedRow :=
  acc ≫= extend db ts t.

(** Modelled from the spec: the rows the backend returns for a table
    expression. An inner join keeps the pairs that satisfy the
    condition; a left join also keeps, once, a row without a match
    (glossary, outer join "no row"). *)
Definition joinRows (db : DB) (t : Table) : list JoinedRow :=
  match t with
  | [] => []
  | b :: js =>
      foldl (joinStep db (TModel <$> t)) ((fun r => [Some r]) <$> rowsOf db (TModel b)) js
  end.

Definition colValue (jr : JoinedRow) (c : Column) : option GoValue :=
  match jr !! ColTable c with
  | Some (Some r) => r !! ColField c
  | _ => None
  end.

Definition keep (conds : list (Column * GoValue)) (jr : JoinedRow) : bool :=
  forallb (fun cv => bool_decide (colValue jr cv.1 = Some cv.2)) conds.

Definition compareValue (a b : option GoValue) : comparison :=
  match a, b with
  | None, None => Eq
  | None, Some _ => Lt
  | Some _, None => Gt
  | Some (VInt _ x), Some (VInt _ y) => Z.compare x y
  | Some (VTime x), Some (VTime y) => Z.compare x y
  | Some (VString x), Some (VString y) => String.compare x y
  | Some _, Some _ => Eq
  end.

Fixpoint compareRows (sorts : list (Column * Direction)) (a b : JoinedRow) : comparison :=
  match sorts with
  | [] => Eq
  | (c, d) :: rest =>
      match compareValue (colValue a c) (colValue b c), d with
      | Eq, _ => compareRows rest a b
      | r, ASC => r
      | r, DESC => CompOpp r
      end
  end.

Definition rowLe (sorts : list (Column * Direction)) (a b : JoinedRow) : Prop :=
  compareRows sorts a b <> Gt.

Global Instance rowLe_dec sorts : RelDecision (rowLe sorts).
Proof. intros a b. unfold rowLe. apply _. Defined.

Definition execute (db : DB) (t : Table) (conds : list (Column * GoValue))
    (sorts : list (Column * Direction)) : list JoinedRow :=
  let rs := List.filter (keep conds) (joinRows db t) in
  match sorts with
  | [] => rs
  | _ :: _ => merge_sort (rowLe sorts) rs
  end.

(** *** Destinations *)

(** What a caller passes to [Next] for one table: the address of a
    pointer variable of the model's type ([Out]), a nil pointer of that
    type ([Nil]), or the untyped nil. A type is named by the model
    registered for it. *)
Inductive Dest :=
| Out (model : string)
| Nil (model : string)
| UntypedNil.

(** What [Next] leaves in a destination: a value filled from a row, the
    nil pointer for "no row", or nothing at all. *)
Inductive Scanned :=
| Filled (r : Row)
| NoRow
| Untouched.

Definition destModel (o : Orm) (d : Dest) : Result Model :=
  match d with
  | UntypedNil => Err errUntypedNilPointer
  | Out n | Nil n =>
      match lookupModel (Models o) n with
      | Some m => Ok m
      | None => Err (ErrNoModel n)
      end
  end.

Fixpoint joinAll (o : Orm) (jt : JoinType) (t : Table) (ms : list Model) : Result Table :=
  match ms with
  | [] => Ok t
  | m :: rest =>
      match Join o t m None jt with
      | Err e => Err e
      | Ok t' => joinAll o jt t' rest
      end
  end.

(** Without an explicit table expression the tables are those of the
    destinations, joined in the order given. *)
Definition inferTable (o : Orm) (jt : JoinType) (dests : list Dest) : Result Table :=
  match mapM (destModel o) dests with
  | Err e => Err e
  | Ok [] => Err (ErrDestinations 1 0)
  | Ok (b :: rest) => joinAll o jt (TableOf b) rest
  end.

Definition tableFor (o : Orm) (q : Q) (dests : list Dest) : Result Table :=
  match QTable q with
  | Some t => Ok t
  | None => inferTable o (QJoin q) dests
  end.

(** Modelled from the spec: the match of the destinations with the
    tables. Section 4.6: by position; the destination of a table marked
    [Skip] is ignored, any other must carry the type of its table, and
    an untyped nil carries none. *)
Definition checkDest (t : TableRef) (d : Dest) : Result unit :=
  if TSkip t then Ok ()
  else match d with
       | UntypedNil => Err errUntypedNilPointer
       | Out n | Nil n =>
           if bool_decide (n = ModelName (TModel t)) then Ok ()
           else Err (ErrDestinationType (ModelName (TModel t)) n)
       end.

Fixpoint checkDests (t : Table) (dests : list Dest) : Result unit :=
  match t, dests with
  | [], [] => Ok ()
  | r :: t', d :: dests' =>
      match checkDest r d with
      | Err e => Err e
      | Ok _ => checkDests t' dests'
      end
  | _, _ => Err (ErrDestinations (length t) (length dests))
  end.

Definition scanOne (t : TableRef) (d : Dest) (cell : option Row) : Scanned :=
  if TSkip t then Untouched
  else match d, cell with
       | Out _, Some r => Filled r
       | Out _, None => NoRow
       | _, _ => Untouched
       end.

Fixpoint scanRow (t : Table) (dests : list Dest) (jr : JoinedRow) : list Scanned :=
  match t, dests, jr with
  | r :: t', d :: dests', cell :: jr' => scanOne r d cell :: scanRow t' dests' jr'
  | _, _, _ => []
  end.

(** *** The iterator (spec 4.6) *)

Record Iter := {
  orm : Orm;
  db : DB;
  q : Q;
  plan : option Table;
  rows : list JoinedRow;
  err : option Error;
  closed : bool
}.

(** [Query(...).Iter()]: the state [Built]. *)
Definition NewIter (o : Orm) (d : DB) (qu : Q) : Iter :=
  {| orm := o; db := d; q := qu; plan := None; rows := []; err := None; closed := false |}.

Definition fail (it : Iter) (e : Error) : Iter :=
  {| orm := orm it; db := db it; q := q it; plan := plan it; rows := [];
     err := Some e; closed := true |}.

Definition finish (it : Iter) : Iter :=
  {| orm := orm it; db := db it; q := q it; plan := plan it; rows := [];
     err := err it; closed := true |}.

(** From [Built] to [Executing]: the table expression, the check of the
    destinations against it, the columns of the names the filter and
    the sort mention, and the statement run by the backend. *)
Definition compile (it : Iter) (dests : list Dest) : Result (Table * list JoinedRow) :=
  match tableFor (orm it) (q it) dests with
  | Err e => Err e
  | Ok t =>
      match checkDests t dests with
      | Err e => Err e
      | Ok _ =>
          match mapM (resolveName (TModel <$> t)) (names (q it)) with
          | Err e => Err e
          | Ok cols =>
              let n := length (Filter (q it)) in
              Ok (t, execute (db it) t
                       (zip (take n cols) (CValue <$> Filter (q it)))
                       (zip (drop n cols) (SortBy (q it)).*2))
          end
      end
  end.

(** Reading the next row of an executing iterator. *)
Definition advance (t : Table) (dests : list Dest) (it : Iter)
  : bool * list Scanned * Iter :=
  match checkDests t dests with
  | Err e => (false, [], fail it e)
  | Ok _ =>
      match rows it with
      | [] => (false, [], finish it)
      | jr :: rest =>
          (true, scanRow t dests jr,
           {| orm := orm it; db := db it; q := q it; plan := Some t; rows := rest;
              err := None; closed := false |})
      end
  end.

(** Modelled from the spec: [Iter.Next] is missing from the sources;
    [references_test.go] calls it. Section 4.6: an iterator with an
    error, or exhausted, returns false; the first call compiles and
    executes the query, an error becoming the error of the iterator;
    every call then hands out one row, filling the destinations. *)
Definition Next (dests : list Dest) (it : Iter) : bool * list Scanned * Iter :=
  match err it with
  | Some _ => (false, [], it)
  | None =>
      if closed it then (false, [], it)
      else match plan it with
           | Some t => advance t dests it
           | None =>
               match compile it dests with
               | Err e => (false, [], fail it e)
               | Ok (t, rs) =>
                   advance t dests
                     {| orm := orm it; db := db it; q := q it; plan := Some t;
                        rows := rs; err := None; closed := false |}
               end
           end
  end.

Definition Err_ (it : Iter) : option Error := err it.

(** The left join of a referenced table [T] with a referencing table
    [E] on the condition [c]: the rows of [E] that refer to the row [t]
    of [T], and the destinations [t] gives rise to. *)
Definition leftJoinRef (E : Model) (c : JoinOn) : TableRef :=
  {| TModel := E; TSkip := false; TJoin := LeftJoin; TOn := Some c |}.

Definition referrers (d : DB) (T E : Model) (c : JoinOn) (t : Row) : list Row :=
  matching d [T; E] [Some t] (leftJoinRef E c).

Definition leftJoined (d : DB) (T E : Model) (c : JoinOn) (t : Row)
  : list (list Scanned) :=
  match referrers d T E c t with
  | [] => [[Filled t; NoRow]]
  | rs => (fun e => [Filled t; Filled e]) <$> rs
  end.

(** The result of a [Next] whose destination [i] was left untouched. *)
Definition skipAt (i : nat) (r : bool * list Scanned * Iter) : bool * list Scanned * Iter :=
  (r.1.1, <[i := Untouched]> r.1.2, r.2).

(** [for iter.Next(dests...) { }]: the destinations of every row read,
    and the iterator left behind. *)
Fixpoint drain (fuel : nat) (dests : list Dest) (it : Iter)
  : list (list Scanned) * Iter :=
  match fuel with
  | O => ([], it)
  | S fuel' =>
      match Next dests it with
      | (true, out, it') =>
          let '(outs, it'') := drain fuel' dests it' in (out :: outs, it'')
      | (false, _, it') => ([], it')
      end
  end.

(** *** The data of the reference tests

    Two timestamps, three events of the first timestamp and a fourth
    event with no timestamp. *)
Definition testOrm : Orm :=
  {| Models := [Event; Timestamp];
     References := [{| From := "Event"; FromField := "Timestamp";
                       To := "Timestamp"; ToField := "Id" |}];
     CreationOrder := ["Timestamp"; "Event"];
     Initialized := true |}.

Definition t1 : Row := [VInt W64 1; VTime 1000].
Definition t2 : Row := [VInt W64 2; VTime 4600].
Definition E1 : Row := [VInt W64 1; VInt W64 1; VString "E1"].
Definition E2 : Row := [VInt W64 2; VInt W64 1; VString "E2"].
Definition E3 : Row := [VInt W64 3; VInt W64 1; VString "E3"].
Definition E4 : Row := [VInt W64 4; VInt W64 0; VString "E4"].

Definition testDB : DB :=
  {[ "test_references_timestamp" := [t1; t2];
     "test_references_event" := [E1; E2; E3; E4] ]}.

Definition eq_ (field : string) (v : Z) : Cond :=
  {| CField := field; CValue := VInt W64 v |}.


(** [timestampTable.MustJoin(eventTable, nil, InnerJoin)]. *)
Definition timestampJoinEvent : Table :=
  match Join testOrm (TableOf Timestamp) Event None InnerJoin with
  | Ok t => t
  | Err _ => []
  end.

(** [eventTable.MustJoin(timestampTable, nil, LeftJoin)]. *)
Definition eventLeftJoinTimestamp : Table :=
  match Join testOrm (TableOf Event) Timestamp None LeftJoin with
  | Ok t => t
  | Err _ => []
  end.

End Iteration.

(** ** Programs over the scanner pool *)

Module SqlRun.
Import Go Driver Sql.

(** What a call on the scanner writing to [out] may change: no
    scanner, not the pool, no variable other than [out], and no array
    that existed before. *)
Definition only_writes (out : nat) (st st' : State) : Prop :=
  objs st' = objs st
  /\ simpleScannerPool st' = simpleScannerPool st
  /\ (forall a, a ∈ dom (arrays st) -> arrays st' !! a = arrays st !! a)
  /\ (forall o, o <> out -> vars st' !! o = vars st !! o).

Section Run.

Variable Sprint : GoValue -> string.

(** One step of a program that uses the package: a call of [Scanner],
    a call of [Put] on a scanner that was allocated, a call of [Scan]
    that returns, or code outside the package writing variables and
    byte arrays. *)
Inductive step : State -> State -> Prop :=
| step_Scanner val tag st s st' :
    Scanner val tag st = Return (s, st') -> step st st'
| step_Put s st :
    is_Some (objs st !! s) -> step st (Put s st)
| step_Scan s src st e st' :
    Scan Sprint s src st = Return (e, st') -> step st st'
| step_mem st v a :
    step st (set_arrays (set_vars st v) a).

Definition reachable (st : State) : Prop := rtc step init st.

End Run.

End SqlRun.

(** ** Helpers of the reference tests (package [orm]) *)

Module ReferencesTest.

Record Event := { Id : Z; Timestamp : Z; Name : string }.

Definition eventNames : list string := ["E1"; "E2"; "E3"].
Definition eventCount : Z := Z.of_nat (length eventNames).

(** The index expression [l[i]] with its bounds check. *)
Definition index {A} (l : list A) (i : Z) : Outcome A :=
  if bool_decide (0 <= i)
  then match l !! Z.to_nat i with
       | Some x => Return x
       | None => Panic
       end
  else Panic.

(** [testCount]; the result tells whether [t.Errorf] is called. *)
Definition testCount (count expected : Z) : bool :=
  let expected := if bool_decide (expected < 0) then eventCount else expected in
  bool_decide (count <> expected).

(** [testEvent] on an event pointer ([None] is nil); the result tells
    whether [t.Errorf] is called. *)
Definition testEvent (event : option Event) (pos : Z) : Outcome bool :=
  let pos := if bool_decide (pos < 0)
             then Go.wrap Go.WInt (Z.of_nat (length eventNames) - pos)
             else pos in
  expect ← index eventNames pos;
  match event with
  | None => Panic
  | Some e => Return (bool_decide (expect <> Name e))
  end.

End ReferencesTest.

(** ** More of package [strings], and slice expressions on strings *)

Module Strings.
Import Text.

(** [strings.Index s sep]: the position of the first occurrence of
    [sep] in [s]; [None] stands for -1. *)
Fixpoint Index (s sep : string) {struct s} : option nat :=
  if HasPrefix s sep then Some 0%nat
  else match s with
       | EmptyString => None
       | String _ s' => S <$> Index s' sep
       end.

(** The slice expressions [s[:n]] and [s[n:]], for [n] within [s]. *)
Fixpoint upto (n : nat) (s : string) : string :=
  match n, s with
  | S n', String c s' => String c (upto n' s')
  | _, _ => EmptyString
  end.

Fixpoint from (n : nat) (s : string) : string :=
  match n, s with
  | S n', String _ s' => from n' s'
  | _, _ => s
  end.

(** [strings.Join]. *)
Fixpoint Join (a : list string) (sep : string) : string :=
  match a with
  | [] => EmptyString
  | [x] => x
  | x :: rest => x +:+ (sep +:+ Join rest sep)
  end.

End Strings.

(** ** Configuration pseudo-URLs (package [config]) *)

Module Config.
Import Text Strings.

Definition Map := gmap string string.

Definition Get (m : Map) (key : string) : string := default EmptyString (m !! key).

Record URL := {
  Scheme : string;
  Value : string;
  Query : Map;
  Fragment : Map
}.

Section Config.

(** [url.ParseQuery] and [url.QueryEscape] of the Go library, and the
    errors the former reports. *)
Variable QErr : Type.
Variable ParseQuery : string -> QErr + gmap string (list string).
Variable QueryEscape : string -> string.

Inductive Error :=
| ErrInvalidURL (s : string)
| ErrQuery (err : QErr).

(** One [k=v] element of [Map.String]. *)
Definition pair_ (kv : string * string) : string :=
  QueryEscape kv.1 +:+ ("=" +:+ QueryEscape kv.2).

(** The text [Map.String] builds when its loop visits the entries in
    the order [entries]. *)
Definition encode (entries : list (string * string)) : string :=
  Join (pair_ <$> entries) "&".

(** [Map.String]: Go leaves the order in which a [range] loop visits a
    map unspecified, so every order of the entries is a possible
    result. *)
Definition Map_String (m : Map) (out : string) : Prop :=
  exists entries, entries ≡ₚ map_to_list m /\ out = encode entries.

(** [URL.ValueAndQuery], given the text [q] of [u.Query.String()]. *)
Definition valueAndQuery (u : URL) (q : string) : string :=
  if bool_decide (q <> EmptyString) then Value u +:+ ("?" +:+ q) else Value u.

Definition ValueAndQuery (u : URL) (out : string) : Prop :=
  exists q, Map_String (Query u) q /\ out = valueAndQuery u q.

(** [URL.String], given the texts [q] and [f] of [u.Query.String()]
    and [u.Fragment.String()]. *)
Definition render (u : URL) (q f : string) : string :=
  let s := if bool_decide (Scheme u <> EmptyString)
           then Scheme u +:+ ("://" +:+ Value u)
           else Value u in
  let s := if bool_decide (0 < size (Query u))%nat
           then s +:+ ((if Contains s "?" then "&" else "?") +:+ q)
           else s in
  if bool_decide (0 < size (Fragment u))%nat
  then s +:+ ("#" +:+ f)
  else s.

Definition URL_String (u : URL) (out : string) : Prop :=
  exists q f,
    Map_String (Query u) q /\ Map_String (Fragment u) f /\ out = render u q f.

(** The loop [for k, v := range val { m[k] = v[len(v)-1] }]: the last
    value of every key; indexing an empty list of values panics. *)
Definition lastValues (val : gmap string (list string)) : Outcome Map :=
  if bool_decide (map_Forall (fun _ v => v <> []) val)
  then Return (omap last val)
  else Panic.

(** [parseURL]. The pointer argument only says where the result is
    stored: all four fields are assigned on success and none on
    failure, so the function is given by the value it stores. *)
Definition parseURL (s : string) : Outcome (Error + URL) :=
  match Index s "://" with
  | None => Return (inl (ErrInvalidURL s))
  | Some p =>
      let scheme := upto p s in
      let value := from (p + 3) s in
      match
        match Index value "#" with
        | Some f =>
            match ParseQuery (from (f + 1) value) with
            | inl err => Return (inl (ErrQuery err))
            | inr val =>
                fragment ← lastValues val;
                Return (inr (fragment, upto f value))
            end
        | None => Return (inr (∅, value))
        end
      with
      | Panic => Panic
      | Return (inl err) => Return (inl err)
      | Return (inr (fragment, value)) =>
          match Index value "?" with
          | Some q =>
              match ParseQuery (from (q + 1) value) with
              | inl err => Return (inl (ErrQuery err))
              | inr val =>
                  query ← lastValues val;
                  Return (inr {| Scheme := scheme; Value := upto q value;
                                 Query := query; Fragment := fragment |})
              end
          | None =>
              Return (inr {| Scheme := scheme; Value := value;
                             Query := ∅; Fragment := fragment |})
          end
      end
  end.

(** [URL.Parse]: the receiver after the call, and the error. *)
Definition Parse (u : URL) (s : string) : Outcome (URL * option Error) :=
  r ← parseURL s;
  match r with
  | inl err => Return (u, Some err)
  | inr u' => Return (u', None)
  end.

Definition ParseURL (s : string) : Outcome (Error + URL) := parseURL s.

Definition MustParseURL (s : string) : Outcome URL :=
  r ← ParseURL s;
  match r with
  | inl _ => Panic
  | inr u => Return u
  end.

End Config.

End Config.

(** ** Debug storage of a request context (package [app]) *)

Module App.

Section Debug.

(** The non-nil values an [interface{}] can hold; [None] is nil. *)
Variable Dyn : Type.

(** The one field of [Context] the debug storage uses; [None] is the
    nil map. *)
Record Context := { debugStorage : option (gmap string (option Dyn)) }.

Definition storeDebug (name : string) (val : option Dyn) (c : Context) : Context :=
  let m := match debugStorage c with
           | None => ∅
           | Some m => m
           end in
  {| debugStorage := Some (<[name := val]> m) |}.

Definition getDebug (name : string) (c : Context) : option Dyn :=
  match debugStorage c with
  | None => None
  | Some m => default None (m !! name)
  end.

End Debug.

End App.

(** ** Page tokens (package [facebook]) *)

Module Facebook.

Record Token := { Key : string; Expires : Go.Time }.

(** The decoded JSON values [AccountToken] inspects: a field is a
    string or something else, an element of the list is an object or
    something else. *)
Inductive Json :=
| JString (s : string)
| JOther.

Inductive Item :=
| JObject (fields : gmap string Json)
| JNotObject.

Section AccountToken.

(** [GraphGet] applied to a path and an access token (its parameter
    map is nil here): an error, or the value of the [data] entry of
    the response, [None] when that is no list. *)
Variable GErr : Type.
Variable GraphGet : string -> string -> GErr + option (list Item).

Inductive Error :=
| ErrGraph (err : GErr)
| ErrNoToken (accountId : string).

(** The loop over [data]: the value of [key] when it ends. *)
Fixpoint findKey (data : list Item) (accountId : string) : Outcome string :=
  match data with
  | [] => Return EmptyString
  | JNotObject :: _ => Panic
  | JObject account :: rest =>
      match account !! "id" with
      | Some (JString id) =>
          if bool_decide (id = accountId)
          then match account !! "access_token" with
               | Some (JString key) => Return key
               | _ => Panic
               end
          else findKey rest accountId
      | _ => Panic
      end
  end.

Definition AccountToken (token : Token) (accountId : string) : Outcome (Error + Token) :=
  match GraphGet "/me/accounts" (Key token) with
  | inl err => Return (inl (ErrGraph err))
  | inr None => Panic
  | inr (Some data) =>
      key ← findKey data accountId;
      if bool_decide (key = EmptyString)
      then Return (inl (ErrNoToken accountId))
      else Return (inr {| Key := key; Expires := Expires token |})
  end.

End AccountToken.

End Facebook.

(** ** Facts about text *)

Section TextFacts.
Import Text.

Lemma append_nil s : "" +:+ s = s.
Proof. reflexivity. Qed.

Lemma append_cons c a s : String c a +:+ s = String c (a +:+ s).
Proof. reflexivity. Qed.

Lemma HasPrefix_app p s : HasPrefix (p +:+ s) p = true.
Proof.
  induction p as [|c p IH]; [done|].
  rewrite append_cons. simpl.
  rewrite bool_decide_eq_true_2 by done. exact IH.
Qed.

Lemma Contains_unfold s p :
  Contains s p =
  HasPrefix s p || match s with
                   | EmptyString => false
                   | String _ s' => Contains s' p
                   end.
Proof. by destruct s. Qed.

Lemma Contains_prefix p s : Contains (p +:+ s) p = true.
Proof. rewrite Contains_unfold. by rewrite HasPrefix_app. Qed.

Lemma Contains_app_r a s p : Contains s p = true -> Contains (a +:+ s) p = true.
Proof.
  intros H. induction a as [|c a IH]; [done|].
  rewrite append_cons, Contains_unfold, IH. apply orb_true_r.
Qed.


End TextFacts.

(** ** Facts about the scanner *)

Section ScannerFacts.
Import Go Driver Sql.

Variable Sprint : GoValue -> string.

Lemma TypeOf_Zero t : TypeOf (Zero t) = t.
Proof. induction t; simpl; congruence. Qed.

Lemma AssignableTo_refl t : AssignableTo t t = true.
Proof. unfold AssignableTo. by rewrite bool_decide_eq_true_2. Qed.

Lemma assignTo_same t v : TypeOf v = t -> assignTo t v = v.
Proof. intros H. unfold assignTo. by rewrite bool_decide_eq_true_2. Qed.

Lemma deref_Return s st sc cur :
  objs st !! s = Some sc -> vars st !! Out sc = Some cur ->
  deref s st = Return (sc, cur).
Proof. intros H1 H2. unfold deref. by rewrite H1, H2. Qed.

(** C8. Scanning a nil source into any destination variable stores the
    zero value of the variable's type there and returns a nil error;
    no other variable, array or scanner changes. *)
Theorem Scan_nil_zero (s : nat) (st : State) (sc : simpleScanner) (cur : GoValue) :
  objs st !! s = Some sc ->
  vars st !! Out sc = Some cur ->
  exists st',
    Scan Sprint s None st = Return (None, st')
    /\ vars st' !! Out sc = Some (Zero (TypeOf cur))
    /\ TypeOf (Zero (TypeOf cur)) = TypeOf cur
    /\ (forall o, o <> Out sc -> vars st' !! o = vars st !! o)
    /\ arrays st' = arrays st /\ objs st' = objs st
    /\ simpleScannerPool st' = simpleScannerPool st.
Proof.
  intros Hs Hout. eexists. unfold Scan.
  rewrite (deref_Return _ _ _ _ Hs Hout). simpl.
  unfold Set_. rewrite Hout, TypeOf_Zero, AssignableTo_refl. simpl.
  split; [reflexivity|]. simpl.
  rewrite assignTo_same by apply TypeOf_Zero.
  split; [apply lookup_insert_eq|].
  split; [reflexivity|].
  split; [|done].
  intros o Ho. by apply lookup_insert_ne.
Qed.

Lemma Scan_supported_shape (o : Outcome State) :
  let r := (st' ← o; Return (@None string, st')) in
  r = Panic \/ exists st', r = Return (None, st').
Proof. destruct o as [st'|]; simpl; eauto. Qed.

Lemma Scan_supported_deref {A} (d : Outcome A) (k : A -> Outcome (option string * State)) :
  (forall a, k a = Panic \/ exists st', k a = Return (None, st')) ->
  (d ≫= k) = Panic \/ exists st', (d ≫= k) = Return (None, st').
Proof. intros Hk. destruct d as [a|]; simpl; eauto. Qed.

Lemma Scan_supported (s : nat) (src : option GoValue) (st : State) :
  dynType src ∈ scannable ->
  Scan Sprint s src st = Panic \/ exists st', Scan Sprint s src st = Return (None, st').
Proof.
  intros Hin. unfold scannable, dynType in Hin.
  destruct src as [v|]; [destruct v as [| w | | | | | | | | | |]; try destruct w|];
    simpl in Hin;
    first [ unfold Scan; apply Scan_supported_deref; intros [sc cur];
            apply Scan_supported_shape
          | exfalso; rewrite !elem_of_cons, elem_of_nil in Hin;
            intuition discriminate ].
Qed.

(** C7. [Scan] returns an error exactly when the dynamic type of the
    source is none of nil, [int64], [bool], [[]byte], [string] and
    [time.Time]; the error text then carries the name of that type and
    the state is untouched; for the six handled types [Scan] never
    reports an error about the destination: it returns nil unless the
    [reflect] setter it calls panics. *)
Theorem Scan_error_iff (s : nat) (src : option GoValue) (st : State) :
  ((exists msg st', Scan Sprint s src st = Return (Some msg, st'))
   <-> dynType src ∉ scannable)
  /\ (forall v, src = Some v -> dynType src ∉ scannable ->
        Scan Sprint s src st = Return (Some (cantScan Sprint v), st)
        /\ Text.Contains (cantScan Sprint v) (TypeName (TypeOf v)) = true)
  /\ (dynType src ∈ scannable ->
        Scan Sprint s src st = Panic
        \/ exists st', Scan Sprint s src st = Return (None, st')).
Proof.
  assert (Hbad : forall v, src = Some v -> dynType src ∉ scannable ->
            Scan Sprint s src st = Return (Some (cantScan Sprint v), st)).
  { intros v -> Hnot. unfold scannable, dynType in Hnot.
    destruct v as [| w | | | | | | | | | |]; try destruct w;
      simpl in Hnot; first [ reflexivity | exfalso; apply Hnot;
        rewrite !elem_of_cons; tauto ]. }
  split; [split|split].
  - intros (msg & st' & Heq) Hin.
    destruct (Scan_supported s src st Hin) as [Hp | [st'' Hr]]; congruence.
  - intros Hnot. destruct src as [v|].
    + rewrite (Hbad v eq_refl Hnot). eauto.
    + exfalso. apply Hnot. unfold scannable, dynType. rewrite elem_of_cons; by left.
  - intros v Hv Hnot. split; [by apply Hbad|].
    unfold cantScan. do 3 apply Contains_app_r. apply Contains_prefix.
  - apply Scan_supported.
Qed.

(** The destination is not validated: an [int64] scanned into a string
    variable is no error, the [reflect] setter panics. *)
Example Scan_int64_into_string :
  let st := set_objs (set_vars init {[ 1%nat := VString "" ]})
              {[ 7%nat := {| Out := 1; Tag := {| Name := ""; Options := [] |} |} ]} in
  Scan Sprint 7 (Some (VInt W64 5)) st = Panic.
Proof. reflexivity. Qed.

End ScannerFacts.

Section BytesFacts.
Import Go Driver Sql.

Variable Sprint : GoValue -> string.

Local Arguments copy_bytes : simpl never.
Local Arguments make_bytes : simpl never.

Lemma bytesOf_length st x : valid_slice st x -> length (bytesOf st x) = slice_len x.
Proof.
  destruct x as [|h]; [done|]. intros (arr & Harr & Hlen). simpl.
  rewrite Harr. simpl. rewrite length_take, length_drop. lia.
Qed.

Lemma bytesOf_set_arrays st x a :
  (forall h, x = SliceOf h -> a !! (base h) = arrays st !! (base h)) ->
  bytesOf (set_arrays st a) x = bytesOf st x.
Proof. destruct x as [|h]; [done|]. intros H. simpl. by rewrite (H h eq_refl). Qed.

(** The copy [Scan] makes: a fresh array holding the bytes of [x]. *)
Lemma make_copy st x b st1 :
  valid_slice st x ->
  make_bytes (slice_len x) st = (b, st1) ->
  let st2 := copy_bytes b x st1 in
  exists a,
    b = SliceOf {| base := a; off := 0; len := slice_len x |}
    /\ (a ∉ dom (arrays st))
    /\ arrays st2 = <[a := bytesOf st x]> (arrays st)
    /\ vars st2 = vars st /\ objs st2 = objs st
    /\ simpleScannerPool st2 = simpleScannerPool st.
Proof.
  intros Hv Hmk. unfold make_bytes in Hmk. injection Hmk as <- <-.
  set (a := fresh (dom (arrays st))).
  assert (Ha : a ∉ dom (arrays st)) by apply is_fresh.
  exists a. split; [done|]. split; [done|]. unfold copy_bytes. simpl.
  rewrite lookup_insert_eq. simpl.
  rewrite Nat.min_id, drop_replicate, Nat.sub_diag. simpl.
  rewrite app_nil_r, insert_insert_eq.
  rewrite bytesOf_set_arrays.
  - rewrite firstn_all2 by (rewrite bytesOf_length; [lia|done]). done.
  - intros h ->. destruct Hv as (arr & Harr & _).
    apply lookup_insert_ne. intros ->. apply Ha, elem_of_dom. eauto.
Qed.

(** C6. Scanning a [[]byte] source: into a variable of string kind it
    stores the bytes converted to text; into a [[]byte] variable it
    stores, for a non-empty source, a slice over a freshly allocated
    array holding the same bytes (so that later writes to the source
    array are not seen), or the source slice itself when the tag has
    the [raw] option; an empty source is stored as the nil slice. *)
Theorem Scan_bytes (s : nat) (st : State) (sc : simpleScanner)
    (cur : GoValue) (x : ByteSlice) :
  objs st !! s = Some sc ->
  vars st !! Out sc = Some cur ->
  valid_slice st x ->
  (KindOf (TypeOf cur) = String ->
     exists st',
       Scan Sprint s (Some (VBytes x)) st = Return (None, st')
       /\ vars st' !! Out sc
          = Some (withType (TypeOf cur)
                    (VString (String.string_of_list_byte (bytesOf st x)))))
  /\ (TypeOf cur = TBytes -> (0 < slice_len x)%nat -> Has (Tag sc) "raw" = false ->
        exists st' b,
          Scan Sprint s (Some (VBytes x)) st = Return (None, st')
          /\ vars st' !! Out sc = Some (VBytes (SliceOf b))
          /\ (base b ∉ dom (arrays st))
          /\ bytesOf st' (SliceOf b) = bytesOf st x
          /\ (forall a, a ∈ dom (arrays st) -> arrays st' !! a = arrays st !! a)
          /\ (forall a arr, a ∈ dom (arrays st) ->
                bytesOf (set_arrays st' (<[a := arr]> (arrays st'))) (SliceOf b)
                = bytesOf st x))
  /\ (TypeOf cur = TBytes -> (0 < slice_len x)%nat -> Has (Tag sc) "raw" = true ->
        exists st',
          Scan Sprint s (Some (VBytes x)) st = Return (None, st')
          /\ vars st' !! Out sc = Some (VBytes x)
          /\ arrays st' = arrays st)
  /\ (TypeOf cur = TBytes -> slice_len x = 0%nat ->
        exists st',
          Scan Sprint s (Some (VBytes x)) st = Return (None, st')
          /\ vars st' !! Out sc = Some (VBytes NilSlice)
          /\ arrays st' = arrays st).
Proof.
  intros Hs Hout Hv.
  assert (Hd := deref_Return _ _ _ _ Hs Hout).
  split; [|split; [|split]].
  - intros Hk. unfold Scan. rewrite Hd. simpl.
    rewrite bool_decide_eq_true_2 by done.
    unfold SetString. rewrite Hout, bool_decide_eq_true_2 by done. simpl.
    eexists; split; [reflexivity|]. simpl. apply lookup_insert_eq.
  - intros Ht Hlen Hraw. unfold Scan. rewrite Hd.
    destruct (make_bytes (slice_len x) st) as [b st1] eqn:Hmk.
    destruct (make_copy st x b st1 Hv Hmk) as (a & -> & Ha & Harr & Hvars & _).
    remember (copy_bytes _ x st1) as st2 eqn:Hst2. clear Hst2.
    simpl. rewrite Ht. simpl. rewrite bool_decide_eq_true_2 by done.
    rewrite Hraw. simpl.
    unfold Set_. rewrite Hvars, Hout, Ht. simpl.
    eexists _, _. split; [reflexivity|]. simpl.
    split; [apply lookup_insert_eq|]. split; [done|].
    rewrite Harr. split; [|split].
    + rewrite lookup_insert_eq. simpl. rewrite drop_0.
      apply firstn_all2. rewrite bytesOf_length by done. lia.
    + intros a' Ha'. apply lookup_insert_ne. intros ->. done.
    + intros a' arr Ha'. simpl.
      rewrite lookup_insert_ne by (intros ->; done).
      rewrite lookup_insert_eq. simpl. rewrite drop_0.
      apply firstn_all2. rewrite bytesOf_length by done. lia.
  - intros Ht Hlen Hraw. unfold Scan. rewrite Hd. simpl.
    rewrite Ht. simpl. rewrite bool_decide_eq_true_2 by done.
    rewrite Hraw. simpl.
    unfold Set_. rewrite Hout, Ht. simpl.
    eexists. split; [reflexivity|]. simpl.
    split; [apply lookup_insert_eq|done].
  - intros Ht Hlen. unfold Scan. rewrite Hd. simpl.
    rewrite Ht. simpl. rewrite bool_decide_eq_false_2 by lia.
    unfold Set_. rewrite Hout, Ht. simpl.
    eexists. split; [reflexivity|]. simpl.
    split; [apply lookup_insert_eq|done].
Qed.


End BytesFacts.

Section PoolFacts.
Import Go Driver Sql.

Lemma pool_ok_init : pool_ok init.
Proof. repeat split; simpl; [lia|constructor]. Qed.

Lemma Put_full s st :
  length (buf (simpleScannerPool st)) = cap (simpleScannerPool st) -> Put s st = st.
Proof.
  intros H. unfold Put, trySend. by rewrite bool_decide_eq_false_2 by lia.
Qed.

Lemma Put_room s st :
  (length (buf (simpleScannerPool st)) < cap (simpleScannerPool st))%nat ->
  Put s st = set_pool st {| buf := buf (simpleScannerPool st) ++ [s];
                            cap := cap (simpleScannerPool st) |}.
Proof.
  intros H. unfold Put, trySend. by rewrite bool_decide_eq_true_2 by lia.
Qed.

Lemma Put_pool_ok s st : pool_ok st -> is_Some (objs st !! s) -> pool_ok (Put s st).
Proof.
  intros (Hcap & Hlen & Hall) Hs.
  destruct (decide (length (buf (simpleScannerPool st)) < cap (simpleScannerPool st))%nat)
    as [Hlt|Hge].
  - rewrite Put_room by done. repeat split; simpl; [done| |].
    + rewrite length_app. simpl. lia.
    + apply Forall_app. split; [done|]. by constructor.
  - rewrite Put_full by lia. done.
Qed.

Lemma Scanner_spec val tag st :
  pool_ok st ->
  exists s st',
    Scanner val tag st = Return (s, st')
    /\ objs st' !! s = Some {| Out := val; Tag := tag |}
    /\ pool_ok st'
    /\ match buf (simpleScannerPool st) with
       | [] => (s ∉ dom (objs st))
               /\ simpleScannerPool st' = simpleScannerPool st
       | s0 :: rest => s = s0 /\ buf (simpleScannerPool st') = rest
       end
    /\ (forall s', s' <> s -> objs st' !! s' = objs st !! s')
    /\ vars st' = vars st /\ arrays st' = arrays st.
Proof.
  intros (Hcap & Hlen & Hall). unfold Scanner, tryRecv.
  destruct (buf (simpleScannerPool st)) as [|s0 rest] eqn:Hbuf.
  - eexists _, _. split; [reflexivity|]. simpl.
    split; [apply lookup_insert_eq|].
    split; [|split; [|split]].
    + repeat split; simpl; [done|rewrite Hbuf; simpl; lia|rewrite Hbuf; constructor].
    + split; [apply is_fresh|done].
    + intros s' Hs'. by apply lookup_insert_ne.
    + done.
  - simpl. inversion Hall as [|? ? [sc Hsc] Hrest]; subst. rewrite Hsc.
    eexists _, _. split; [reflexivity|]. simpl.
    split; [apply lookup_insert_eq|].
    split; [|split; [|split]].
    + repeat split; simpl; [done|simpl in Hlen; lia|].
      eapply Forall_impl; [exact Hrest|]. intros s' [sc' Hs'].
      destruct (decide (s0 = s')) as [->|Hne].
      * rewrite lookup_insert_eq. eauto.
      * rewrite lookup_insert_ne by done. eauto.
    + done.
    + intros s' Hs'. by apply lookup_insert_ne.
    + done.
Qed.

(** C9. The pool is a channel of capacity 64 and never holds more.
    [Put] always returns: it appends the scanner when there is room and
    leaves the state as it is when the pool is full. [Scanner] returns
    a scanner whose [Out] and [Tag] are the arguments, both when it
    takes the oldest pooled scanner and when, the pool being empty, it
    allocates a fresh one. *)
Theorem Scanner_pool (st : State) :
  pool_ok st ->
  cap (simpleScannerPool init) = 64%nat
  /\ (forall s, is_Some (objs st !! s) -> pool_ok (Put s st))
  /\ (forall s, length (buf (simpleScannerPool st)) = 64%nat -> Put s st = st)
  /\ (forall s, (length (buf (simpleScannerPool st)) < 64)%nat ->
        buf (simpleScannerPool (Put s st)) = buf (simpleScannerPool st) ++ [s])
  /\ (forall val tag,
        exists s st',
          Scanner val tag st = Return (s, st')
          /\ objs st' !! s = Some {| Out := val; Tag := tag |}
          /\ pool_ok st'
          /\ (buf (simpleScannerPool st) = [] -> s ∉ dom (objs st))
          /\ (forall s0 rest, buf (simpleScannerPool st) = s0 :: rest ->
                s = s0 /\ buf (simpleScannerPool st') = rest)).
Proof.
  intros Hok. pose proof Hok as (Hcap & Hlen & Hall).
  split; [done|]. split; [|split; [|split]].
  - intros s Hs. by apply Put_pool_ok.
  - intros s Hfull. apply Put_full. lia.
  - intros s Hroom. rewrite Put_room by lia. done.
  - intros val tag.
    destruct (Scanner_spec val tag st Hok) as (s & st' & Hr & Ho & Hok' & Hcase & _).
    exists s, st'. repeat (split; [done|]).
    destruct (buf (simpleScannerPool st)) as [|s0 rest]; split; try done.
    + by destruct Hcase.
    + intros ? ? [= <- <-]. done.
Qed.


End PoolFacts.

(** Instances of the scanner theorems on the concrete state. *)

Lemma Scan_nil_zero_witness :
  Sql.objs Sql.demo !! 7%nat = Some {| Sql.Out := 1; Sql.Tag := Sql.noTag |}
  /\ Sql.vars Sql.demo !! 1%nat = Some (Go.VInt Go.W32 7)
  /\ exists st',
       Sql.Scan (fun _ => "") 7 None Sql.demo = Return (None, st')
       /\ Sql.vars st' !! 1%nat = Some (Go.VInt Go.W32 0).
Proof.
  split; [reflexivity|]. split; [reflexivity|].
  destruct (Scan_nil_zero (fun _ => "") 7 Sql.demo
              {| Sql.Out := 1; Sql.Tag := Sql.noTag |} (Go.VInt Go.W32 7)
              eq_refl eq_refl) as (st' & Hr & Hv & _).
  exists st'. split; [exact Hr | exact Hv].
Defined.

Lemma Scan_bytes_witness :
  Sql.valid_slice Sql.demo Sql.demoSlice
  /\ exists st',
       Sql.Scan (fun _ => "") 8 (Some (Go.VBytes Sql.demoSlice)) Sql.demo
       = Return (None, st')
       /\ Sql.vars st' !! 2%nat = Some (Go.VBytes Sql.demoSlice)
       /\ Sql.arrays st' = Sql.arrays Sql.demo.
Proof.
  assert (Hvalid : Sql.valid_slice Sql.demo Sql.demoSlice).
  { exists [Byte.x61; Byte.x62; Byte.x63]. split; [reflexivity | simpl; lia]. }
  split; [exact Hvalid|].
  destruct (Scan_bytes (fun _ => "") 8 Sql.demo
              {| Sql.Out := 2; Sql.Tag := Sql.rawTag |} (Go.VBytes Go.NilSlice)
              Sql.demoSlice eq_refl eq_refl Hvalid) as (_ & _ & Hraw & _).
  apply Hraw; [reflexivity | simpl; lia | reflexivity].
Defined.

Lemma Scanner_pool_witness :
  Sql.pool_ok Sql.init
  /\ exists s st',
       Sql.Scanner 1 Sql.rawTag Sql.init = Return (s, st')
       /\ Sql.objs st' !! s = Some {| Sql.Out := 1; Sql.Tag := Sql.rawTag |}.
Proof.
  assert (Hok : Sql.pool_ok Sql.init).
  { split; [reflexivity|]. split; [simpl; lia | constructor]. }
  split; [exact Hok|].
  destruct (Scanner_pool Sql.init Hok) as (_ & _ & _ & _ & Hsc).
  destruct (Hsc 1%nat Sql.rawTag) as (s & st' & Hr & Ho & _).
  exists s, st'. split; [exact Hr | exact Ho].
Defined.

(** ** Facts about the reference resolver *)

Section ListFacts.
Context {A : Type}.

Lemma find_elem_of (f : A -> bool) (l : list A) x :
  List.find f l = Some x -> x ∈ l /\ f x = true.
Proof.
  induction l as [|y l IH]; simpl; [done|].
  destruct (f y) eqn:Hy.
  - intros [= ->]. split; [left|done].
  - intros H. destruct (IH H). split; [by right|done].
Qed.

Lemma find_is_Some (f : A -> bool) (l : list A) x :
  x ∈ l -> f x = true -> exists y, List.find f l = Some y.
Proof.
  induction 1 as [x l|x y l Hin IH]; simpl; intros Hx.
  - rewrite Hx. eauto.
  - destruct (f y); eauto.
Qed.

Lemma filter_ne_length `{EqDecision A} (x : A) (l : list A) :
  x ∈ l -> (length (filter (fun y => y <> x) l) < length l)%nat.
Proof.
  induction 1 as [x l|x y l Hin IH].
  - rewrite filter_cons_False by (intros H; by apply H). simpl.
    pose proof (length_filter (fun y => y <> x) l). lia.
  - rewrite filter_cons. destruct (decide (y <> x)); simpl; lia.
Qed.

Lemma NoDup_fmap_eq {B} (g : A -> B) (l : list A) x y :
  NoDup (g <$> l) -> x ∈ l -> y ∈ l -> g x = g y -> x = y.
Proof.
  induction l as [|z l IH]; simpl; intros Hnd Hx Hy Heq.
  - by apply elem_of_nil in Hx.
  - apply NoDup_cons in Hnd as [Hz Hnd].
    apply elem_of_cons in Hx as [->|Hx]; apply elem_of_cons in Hy as [->|Hy].
    + done.
    + exfalso. apply Hz. rewrite Heq. by apply list_elem_of_fmap_2.
    + exfalso. apply Hz. rewrite <- Heq. by apply list_elem_of_fmap_2.
    + by apply IH.
Qed.

End ListFacts.

Section MapM.
Import Orm.
Context {A B : Type} (f : A -> Result B).

Lemma mapM_total (l : list A) :
  (forall x, x ∈ l -> exists y, f x = Ok y) ->
  exists ys, mapM f l = Ok ys /\ Forall2 (fun x y => f x = Ok y) l ys.
Proof.
  induction l as [|x l IH]; intros H; simpl.
  - exists []. split; [done|constructor].
  - destruct (H x) as [y Hy]; [left|]. rewrite Hy. simpl.
    destruct IH as (ys & -> & Hall); [intros z Hz; apply H; by right|].
    simpl. exists (y :: ys). split; [done|]. by constructor.
Qed.



Lemma mapM_Ok_elem (l : list A) (ys : list B) :
  mapM f l = Ok ys ->
  (forall y, y ∈ ys -> exists x, x ∈ l /\ f x = Ok y)
  /\ (forall x, x ∈ l -> exists y, y ∈ ys /\ f x = Ok y).
Proof.
  revert ys. induction l as [|x l IH]; intros ys; simpl.
  - intros [= <-]. split; intros ? H; by apply elem_of_nil in H.
  - destruct (f x) as [y|e] eqn:Hx; simpl; [|done].
    destruct (mapM f l) as [ys'|e] eqn:Hl; simpl; [|done].
    intros [= <-]. destruct (IH ys' eq_refl) as [IH1 IH2]. split.
    + intros y' [->|Hy']%elem_of_cons.
      * exists x. split; [left|done].
      * destruct (IH1 y' Hy') as (x' & ? & ?). exists x'. split; [by right|done].
    + intros x' [->|Hx']%elem_of_cons.
      * exists y. split; [left|done].
      * destruct (IH2 x' Hx') as (y' & ? & ?). exists y'. split; [by right|done].
Qed.

End MapM.

(** *** Registration *)

Section Registration.
Import Driver Orm.

(** Registering models with at most one primary key each, in any
    order, yields the registry holding them in that order. *)
Lemma RegisterAll_open (o : Orm) (ms : list Model) :
  Initialized o = false ->
  (forall m, m ∈ ms ->
     (length (filter (fun f => Has (FieldTag f) "primary_key" = true) (Fields m)) <= 1)%nat) ->
  RegisterAll o ms
  = Ok {| Models := Models o ++ ms; References := References o;
          CreationOrder := CreationOrder o; Initialized := false |}.
Proof.
  revert o. induction ms as [|m ms IH]; intros o Hopen Hpk; simpl.
  - rewrite app_nil_r. destruct o. simpl in Hopen. by subst.
  - unfold Register. rewrite Hopen.
    rewrite bool_decide_eq_false_2
      by (pose proof (Hpk m ltac:(left)); lia).
    rewrite IH; [|done|intros m' Hm'; apply Hpk; by right].
    simpl. by rewrite <- app_assoc.
Qed.

Lemma RegisterAll_registry (ms : list Model) :
  (forall m, m ∈ ms ->
     (length (filter (fun f => Has (FieldTag f) "primary_key" = true) (Fields m)) <= 1)%nat) ->
  RegisterAll New ms = Ok (registry ms).
Proof. intros H. by rewrite RegisterAll_open. Qed.

End Registration.

(** *** Minimal elements of a finite acyclic relation *)

Section Minimal.
Import Orm.
Context (R : relation string) `{!RelDecision R}.

Lemma acyclic_descend (n : nat) :
  acyclic R ->
  forall (l : list string) (x : string),
    (length l <= n)%nat -> x ∈ l ->
    exists m, m ∈ l /\ (m = x \/ tc R x m) /\ forall y, y ∈ l -> ~ R m y.
Proof.
  intros Hacyc. induction n as [|n IH]; intros l x Hlen Hx.
  - destruct l; [by apply elem_of_nil in Hx | simpl in Hlen; lia].
  - destruct (decide (Exists (R x) l)) as [Hex|Hnex].
    + apply Exists_exists in Hex as (y & Hy & Hxy).
      assert (Hne : y <> x).
      { intros ->. apply (Hacyc x). by apply tc_once. }
      set (l' := filter (fun z => z <> x) l).
      assert (Hy' : y ∈ l') by (apply list_elem_of_filter; done).
      assert (Hlen' : (length l' <= n)%nat).
      { pose proof (filter_ne_length x l Hx). unfold l'. lia. }
      destruct (IH l' y Hlen' Hy') as (m & Hm & Hym & Hmin).
      apply list_elem_of_filter in Hm as [Hmx Hm].
      assert (Hxm : tc R x m).
      { destruct Hym as [->|Hym]; [by apply tc_once|].
        eapply tc_l; eauto. }
      exists m. split; [done|]. split; [by right|].
      intros z Hz Hmz. destruct (decide (z = x)) as [->|Hzx].
      * apply (Hacyc x). eapply tc_r; eauto.
      * apply (Hmin z); [|done]. apply list_elem_of_filter. done.
    + exists x. split; [done|]. split; [by left|].
      intros y Hy Hxy. apply Hnex. apply Exists_exists. eauto.
Qed.

Lemma acyclic_minimal (l : list string) (x : string) :
  acyclic R -> x ∈ l -> exists m, m ∈ l /\ forall y, y ∈ l -> ~ R m y.
Proof.
  intros Hacyc Hx.
  destruct (acyclic_descend (length l) Hacyc l x (le_n _) Hx) as (m & ? & _ & ?).
  eauto.
Qed.

End Minimal.

(** *** The topological sort *)

Section Sort.
Import Orm.

Lemma ready_true edges done m :
  ready edges done m = true <->
  forall e, e ∈ edges -> From e = m -> To e <> m -> To e ∈ done.
Proof.
  unfold ready. rewrite forallb_forall. split.
  - intros H e He. apply list_elem_of_In in He.
    specialize (H e He). by apply bool_decide_eq_true in H.
  - intros H e He. apply bool_decide_eq_true. apply H.
    by apply list_elem_of_In.
Qed.

Lemma before_app_r b a l k : before b a l -> before b a (l ++ k).
Proof.
  intros (l1 & l2 & l3 & ->). exists l1, l2, (l3 ++ k).
  by rewrite <- !app_assoc, <- !app_comm_cons, <- !app_assoc, <- !app_comm_cons.
Qed.

Lemma before_last b a l : b ∈ l -> before b a (l ++ [a]).
Proof.
  intros (l1 & l2 & ->)%list_elem_of_split. exists l1, l2, [].
  by rewrite <- !app_assoc, <- !app_comm_cons.
Qed.

Lemma before_lookup b a l :
  before b a l ->
  exists i j, l !! i = Some b /\ l !! j = Some a /\ (i < j)%nat.
Proof.
  intros (l1 & l2 & l3 & ->).
  exists (length l1), (length l1 + S (length l2))%nat. split; [|split; [|lia]].
  - by rewrite list_lookup_middle.
  - rewrite lookup_app_r by lia.
    replace (length l1 + S (length l2) - length l1)%nat with (S (length l2)) by lia.
    simpl. by rewrite list_lookup_middle.
Qed.

(** The loop invariant of [sortModels]: with enough fuel and an acyclic
    dependency relation whose targets are all pending or done, the sort
    returns an order that extends [done], holds exactly the pending and
    done models, and puts every dependency first. *)
Lemma sortModels_sound edges :
  acyclic (depends edges) ->
  forall fuel pending done,
    (length pending <= fuel)%nat ->
    NoDup pending -> NoDup done ->
    (forall x, x ∈ pending -> x ∉ done) ->
    (forall e, e ∈ edges -> To e ∈ pending \/ To e ∈ done) ->
    (forall a b, depends edges a b -> a ∈ done -> before b a done) ->
    exists order,
      sortModels fuel edges pending done = Ok order
      /\ NoDup order
      /\ (forall x, x ∈ order <-> x ∈ pending \/ x ∈ done)
      /\ (forall a b, depends edges a b -> a ∈ order -> before b a order).
Proof.
  intros Hacyc. induction fuel as [|fuel IH];
    intros pending done Hlen Hndp Hndd Hdisj Hclosed Hsorted.
  - destruct pending; [|simpl in Hlen; lia]. simpl.
    exists done. split; [done|]. split; [done|]. split; [|done].
    intros x. rewrite elem_of_nil. tauto.
  - destruct pending as [|p ps] eqn:Hp.
    { simpl. exists done. split; [done|]. split; [done|]. split; [|done].
      intros x. rewrite elem_of_nil. tauto. }
    rewrite <- Hp in *. assert (Hpin : p ∈ pending) by (rewrite Hp; left).
    assert (Hunf : sortModels (S fuel) edges pending done =
              match List.find (ready edges done) pending with
              | None => Err (ErrCycle pending)
              | Some m => sortModels fuel edges
                            (filter (fun x => x <> m) pending) (done ++ [m])
              end) by (rewrite Hp; reflexivity).
    rewrite Hunf. clear Hunf.
    destruct (acyclic_minimal (depends edges) pending p Hacyc Hpin)
      as (m0 & Hm0 & Hmin).
    assert (Hready0 : ready edges done m0 = true).
    { apply ready_true. intros e He Hfrom Hto.
      destruct (Hclosed e He) as [Hin|Hin]; [|done].
      exfalso. apply (Hmin (To e) Hin). apply Exists_exists.
      exists e. split; [done|]. split; [done|]. split; [done|]. congruence. }
    destruct (find_is_Some _ _ _ Hm0 Hready0) as [m Hfind].
    rewrite Hfind. apply find_elem_of in Hfind as [Hm Hready].
    rewrite ready_true in Hready.
    destruct (IH (filter (fun x => x <> m) pending) (done ++ [m]))
      as (order & Hsort & Hnd & Helem & Hord).
    + pose proof (filter_ne_length m pending Hm). lia.
    + by apply NoDup_filter.
    + apply NoDup_app. split; [done|]. split; [|apply NoDup_singleton].
      intros x Hx ->%list_elem_of_singleton. by apply (Hdisj m).
    + intros x [Hxm Hx]%list_elem_of_filter [Hd|Hd%list_elem_of_singleton]%elem_of_app;
        [by apply (Hdisj x)|done].
    + intros e He. destruct (decide (To e = m)) as [Heq|Hne].
      * right. rewrite Heq, elem_of_app, list_elem_of_singleton. by right.
      * destruct (Hclosed e He) as [Hin|Hin].
        -- left. by apply list_elem_of_filter.
        -- right. apply elem_of_app. by left.
    + intros a b Hab [Ha|Ha%list_elem_of_singleton]%elem_of_app.
      * apply before_app_r. by apply Hsorted.
      * subst a. apply before_last.
        apply Exists_exists in Hab as (e & He & Hfrom & Hto & Hne).
        rewrite <- Hto. apply Hready; congruence.
    + exists order. split; [done|]. split; [done|]. split; [|done].
      intros x. rewrite Helem, list_elem_of_filter, elem_of_app, list_elem_of_singleton.
      destruct (decide (x = m)) as [->|Hne]; [tauto|]. tauto.
Qed.

End Sort.

(** *** Resolution and the declared reference graph *)

Section Resolve.
Import Go Driver Orm.

Lemma elem_of_allFields ms m f :
  (m, f) ∈ allFields ms <-> m ∈ ms /\ f ∈ Fields m.
Proof.
  unfold allFields. rewrite list_elem_of_bind. split.
  - intros (m' & Hf & Hm). apply list_elem_of_fmap in Hf as (f' & [= -> ->] & Hf').
    done.
  - intros [Hm Hf]. exists m. split; [|done].
    apply list_elem_of_fmap. eauto.
Qed.

Lemma lookupModel_Some ms n t :
  lookupModel ms n = Some t -> t ∈ ms /\ ModelName t = n.
Proof.
  intros [Hin Hn]%find_elem_of. split; [done|].
  by apply bool_decide_eq_true in Hn.
Qed.

Lemma lookupModel_NoDup ms t :
  NoDup (ModelName <$> ms) -> t ∈ ms -> lookupModel ms (ModelName t) = Some t.
Proof.
  intros Hnd Ht.
  destruct (find_is_Some (fun m => bool_decide (ModelName m = ModelName t)) ms t Ht)
    as [t' Hfind]; [by apply bool_decide_eq_true|].
  unfold lookupModel. rewrite Hfind. f_equal.
  apply find_elem_of in Hfind as [Hin Hn]. apply bool_decide_eq_true in Hn.
  by apply (NoDup_fmap_eq ModelName ms).
Qed.

Lemma resolveField_Ok ms m f :
  resolvable ms -> m ∈ ms -> f ∈ Fields m ->
  match referenceOf f with
  | None => resolveField ms m f = Ok None
  | Some r =>
      exists t tf,
        lookupModel ms (RefModel r) = Some t
        /\ resolveField ms m f
           = Ok (Some {| From := ModelName m; FromField := FieldName f;
                         To := ModelName t; ToField := FieldName tf |})
  end.
Proof.
  intros Hres Hm Hf. unfold resolveField.
  destruct (referenceOf f) as [r|] eqn:Hr; [|done].
  destruct (Hres m f r Hm Hf Hr) as (t & tf & Ht & Htf & Hty).
  exists t, tf. rewrite Ht, Htf. split; [done|].
  by rewrite bool_decide_eq_true_2.
Qed.

(** With every reference resolvable, resolution succeeds and its edges
    are exactly the declared references. *)
Lemma resolveAll_Ok ms :
  resolvable ms ->
  exists edges,
    resolveAll ms = Ok edges
    /\ (forall e, e ∈ edges ->
          refersTo ms (From e) (To e) /\ To e ∈ (ModelName <$> ms))
    /\ (forall a b, refersTo ms a b ->
          exists e, e ∈ edges /\ From e = a /\ To e = b).
Proof.
  intros Hres. unfold resolveAll.
  destruct (mapM_total (fun mf => resolveField ms mf.1 mf.2) (allFields ms))
    as (es & Hes & _).
  { intros [m f] [Hm Hf]%elem_of_allFields. simpl.
    pose proof (resolveField_Ok ms m f Hres Hm Hf) as H.
    destruct (referenceOf f); [destruct H as (? & ? & _ & ->)|rewrite H]; eauto. }
  rewrite Hes. eexists. split; [reflexivity|].
  destruct (mapM_Ok_elem _ _ _ Hes) as [Hback Hfwd]. split.
  - intros e (oe & Hoe & Hid)%list_elem_of_omap. simpl in Hid. subst oe.
    destruct (Hback _ Hoe) as ([m f] & [Hm Hf]%elem_of_allFields & Hrf).
    simpl in Hrf.
    pose proof (resolveField_Ok ms m f Hres Hm Hf) as H.
    destruct (referenceOf f) as [r|] eqn:Hr; [|congruence].
    destruct H as (t & tf & Ht & Heq). rewrite Heq in Hrf.
    injection Hrf as <-. simpl.
    apply lookupModel_Some in Ht as [Ht Hn]. split.
    + exists m, f, r. by rewrite Hn.
    + apply list_elem_of_fmap. eauto.
  - intros a b (m & f & r & Hm & Hf & Hr & <- & <-).
    destruct (Hfwd (m, f)) as (oe & Hoe & Hrf); [by apply elem_of_allFields|].
    simpl in Hrf.
    pose proof (resolveField_Ok ms m f Hres Hm Hf) as H. rewrite Hr in H.
    destruct H as (t & tf & Ht & Heq). rewrite Heq in Hrf. injection Hrf as <-.
    eexists. split; [apply list_elem_of_omap; eexists; split; [exact Hoe|done]|].
    simpl. split; [done|]. by apply lookupModel_Some in Ht as [_ ->].
Qed.

End Resolve.

(** *** Table-creation order *)

Section CreationOrder.
Import Go Driver Orm.

Lemma tc_incl (R R' : relation string) a b :
  (forall x y, R x y -> R' x y) -> tc R a b -> tc R' a b.
Proof.
  intros Hsub. induction 1 as [x y Hxy|x y z Hxy _ IH].
  - by apply tc_once, Hsub.
  - eapply tc_l; [by apply Hsub|done].
Qed.

Lemma refersTo_perm ms ms' a b : ms ≡ₚ ms' -> refersTo ms a b -> refersTo ms' a b.
Proof.
  intros Hp (m & f & r & Hm & H). exists m, f, r. split; [|done].
  by rewrite <- Hp.
Qed.

Lemma resolvable_perm ms ms' :
  NoDup (ModelName <$> ms) -> ms ≡ₚ ms' -> resolvable ms -> resolvable ms'.
Proof.
  intros Hnd Hp Hres m f r Hm Hf Hr. rewrite <- Hp in Hm.
  destruct (Hres m f r Hm Hf Hr) as (t & tf & Ht & Htf & Hty).
  exists t, tf. split; [|done].
  apply lookupModel_Some in Ht as [Ht <-].
  apply lookupModel_NoDup; [by rewrite <- Hp|by rewrite <- Hp].
Qed.

(** [Initialize] on a registry whose references all resolve and whose
    declared reference graph, self-references apart, has no cycle. *)
Lemma Initialize_sorted (o : Orm) :
  NoDup (ModelName <$> Models o) ->
  resolvable (Models o) ->
  acyclic (fun a b => refersTo (Models o) a b /\ a <> b) ->
  exists o',
    Initialize o = Ok o'
    /\ Models o' = Models o /\ Initialized o' = true
    /\ NoDup (CreationOrder o')
    /\ CreationOrder o' ≡ₚ ModelName <$> Models o
    /\ (forall a b, refersTo (Models o) a b -> a <> b ->
          before b a (CreationOrder o')).
Proof.
  intros Hnd Hres Hacyc. unfold Initialize.
  destruct (resolveAll_Ok (Models o) Hres) as (edges & -> & Hedges & Hrefs).
  assert (Hdep : forall a b, depends edges a b ->
            refersTo (Models o) a b /\ a <> b).
  { intros a b (e & He & <- & <- & Hne)%Exists_exists.
    split; [by apply Hedges|done]. }
  assert (Hacyc' : acyclic (depends edges)).
  { intros a Ha. apply (Hacyc a). by eapply tc_incl. }
  destruct (sortModels_sound edges Hacyc' (length (Models o))
              (ModelName <$> Models o) [])
    as (order & -> & Hndo & Helem & Hord).
  - by rewrite length_fmap.
  - done.
  - constructor.
  - intros x _ H. by apply elem_of_nil in H.
  - intros e He. left. by apply Hedges.
  - intros a b _ H. by apply elem_of_nil in H.
  - eexists. split; [reflexivity|]. simpl.
    split; [done|]. split; [done|]. split; [done|]. split.
    + apply NoDup_Permutation; [done|done|].
      intros x. rewrite Helem, elem_of_nil. tauto.
    + intros a b Hab Hne.
      destruct (Hrefs a b Hab) as (e & He & Hfrom & Hto).
      apply Hord.
      * apply Exists_exists. exists e. done.
      * apply Helem. left. destruct Hab as (m & f & r & Hm & _ & _ & <- & _).
        apply list_elem_of_fmap. eauto.
Qed.

(** C1. For registered models with distinct names whose references all
    resolve and whose reference graph is acyclic, [Initialize] succeeds
    on the models registered in any order, and in the table-creation
    order it produces, which holds every model exactly once, every
    referenced model comes strictly before every model referencing
    it. *)
Theorem Initialize_creation_order (ms ms' : list Model) :
  NoDup (ModelName <$> ms) ->
  resolvable ms ->
  acyclic (refersTo ms) ->
  ms ≡ₚ ms' ->
  exists o,
    Initialize (registry ms') = Ok o
    /\ NoDup (CreationOrder o)
    /\ CreationOrder o ≡ₚ ModelName <$> ms
    /\ (forall a b, refersTo ms a b ->
          before b a (CreationOrder o)
          /\ exists i j, CreationOrder o !! i = Some b
                         /\ CreationOrder o !! j = Some a /\ (i < j)%nat).
Proof.
  intros Hnd Hres Hacyc Hp.
  destruct (Initialize_sorted (registry ms')) as (o & Hinit & _ & _ & Hndo & Hperm & Hord).
  - simpl. by rewrite <- Hp.
  - simpl. by apply (resolvable_perm ms).
  - simpl. intros a Ha. apply (Hacyc a).
    eapply tc_incl; [|exact Ha]. intros x y [Hxy _].
    by apply (refersTo_perm ms' ms).
  - exists o. split; [done|]. split; [done|]. simpl in Hperm, Hord.
    split; [by rewrite Hperm, Hp|].
    intros a b Hab.
    assert (Hne : a <> b).
    { intros ->. apply (Hacyc b). by apply tc_once. }
    assert (Hb : before b a (CreationOrder o)).
    { apply Hord; [|done]. by apply (refersTo_perm ms ms'). }
    split; [done|]. by apply before_lookup.
Qed.

End CreationOrder.

(** *** Type mismatches *)

Section TypeMismatch.
Import Go Driver Orm Text.




End TypeMismatch.

(** *** The registries of the reference tests *)

Section TestRegistries.
Import Go Driver Orm Text.

Lemma tests_NoDup : NoDup (ModelName <$> [Event; Timestamp]).
Proof. apply (bool_decide_unpack _). reflexivity. Qed.

Lemma tests_refersTo a b :
  refersTo [Event; Timestamp] a b -> a = "Event" /\ b = "Timestamp".
Proof.
  intros (m & f & r & Hm & Hf & Hr & <- & <-).
  repeat (apply elem_of_cons in Hm as [->|Hm]); [| |by apply elem_of_nil in Hm];
    simpl in Hf;
    repeat (apply elem_of_cons in Hf as [->|Hf]); try (by apply elem_of_nil in Hf);
    vm_compute in Hr; try discriminate; by injection Hr as <-.
Qed.

Lemma tests_resolvable : resolvable [Event; Timestamp].
Proof.
  intros m f r Hm Hf Hr.
  repeat (apply elem_of_cons in Hm as [->|Hm]); [| |by apply elem_of_nil in Hm];
    simpl in Hf;
    repeat (apply elem_of_cons in Hf as [->|Hf]); try (by apply elem_of_nil in Hf);
    vm_compute in Hr; try discriminate; injection Hr as <-.
  exists Timestamp. eexists. split; [reflexivity|]. split; reflexivity.
Qed.

Lemma tests_acyclic : acyclic (refersTo [Event; Timestamp]).
Proof.
  assert (H : forall a b, tc (refersTo [Event; Timestamp]) a b ->
                a = "Event" /\ b = "Timestamp").
  { induction 1 as [x y Hxy|x y z Hxy _ [_ ->]].
    - by apply tests_refersTo.
    - by apply tests_refersTo in Hxy as [-> _]. }
  intros a Ha. apply H in Ha as [-> Heq]. discriminate.
Qed.

(** The reference test registers [Event] before [Timestamp] and expects
    the table of [Timestamp] to be created first. *)
Example Initialize_references_test :
  CreationOrder <$> (match Initialize (registry [Event; Timestamp]) with
                     | Ok o => Some o | Err _ => None end)
  = Some ["Timestamp"; "Event"].
Proof. reflexivity. Qed.

(** The bad-reference test: [BadEvent.Timestamp] is an [int], the
    primary key of [Timestamp] an [int64]. *)
Example Initialize_bad_references_test :
  Initialize (registry [BadEvent; Timestamp])
  = Err (ErrTypeMismatch "Id" "Timestamp" (TInt W64)
                         "Timestamp" "BadEvent" (TInt WInt)).
Proof. reflexivity. Qed.

(** A model referencing itself is ordered like any other. *)
Example Initialize_self_reference :
  let Node := {| ModelName := "Node"; TableName := "node";
                 Fields := [ {| FieldName := "Id"; FieldType := TInt W64;
                                FieldTag := tag [("primary_key", "")] |};
                             {| FieldName := "Parent"; FieldType := TInt W64;
                                FieldTag := tag [("references", "Node")] |} ] |} in
  CreationOrder <$> (match Initialize (registry [Node]) with
                     | Ok o => Some o | Err _ => None end)
  = Some ["Node"].
Proof. reflexivity. Qed.

End TestRegistries.

Lemma Initialize_creation_order_witness :
  exists o,
    Orm.Initialize (Orm.registry [Orm.Timestamp; Orm.Event]) = Orm.Ok o
    /\ Orm.before "Timestamp" "Event" (Orm.CreationOrder o).
Proof.
  destruct (Initialize_creation_order [Orm.Event; Orm.Timestamp]
              [Orm.Timestamp; Orm.Event]
              tests_NoDup tests_resolvable tests_acyclic (perm_swap _ _ _))
    as (o & Hinit & _ & _ & Hord).
  exists o. split; [exact Hinit|].
  apply Hord. exists Orm.Event. eexists. eexists.
  split; [left|]. split; [right; left|]. split; [reflexivity|].
  split; reflexivity.
Defined.



(** ** Facts about the iterator *)

Section IterFacts.
Import Go Driver Orm Iteration Text.







Lemma checkDests_app (tpre tpost : Table) (r : TableRef)
    (pre post : list Dest) (d : Dest) :
  length tpre = length pre ->
  checkDests tpre pre = Ok () ->
  checkDests (tpre ++ r :: tpost) (pre ++ d :: post)
  = match checkDest r d with
    | Err e => Err e
    | Ok _ => checkDests tpost post
    end.
Proof.
  revert pre. induction tpre as [|r' tpre IH]; intros [|d' pre] Hlen Hchk;
    try done; simpl in *.
  destruct (checkDest r' d'); [|done]. apply IH; [lia|done].
Qed.







(** *** A typed nil destination *)

Lemma mapM_insert {A B} (g : A -> Result B) (l : list A) (i : nat) (x y : A) :
  l !! i = Some x -> g y = g x -> mapM g (<[i := y]> l) = mapM g l.
Proof.
  revert i. induction l as [|z l IH]; intros [|i] Hl Hg; try done; simpl in *.
  - injection Hl as ->. by rewrite Hg.
  - by rewrite (IH i Hl Hg).
Qed.

Lemma checkDests_Nil (t : Table) (dests : list Dest) (i : nat) (m : string) :
  dests !! i = Some (Out m) ->
  checkDests t (<[i := Nil m]> dests) = checkDests t dests.
Proof.
  revert t i. induction dests as [|d dests IH]; intros t [|i] Hd; try done;
    simpl in *.
  - injection Hd as ->. by destruct t.
  - destruct t as [|r t]; simpl.
    + by rewrite length_insert.
    + destruct (checkDest r d); [|done]. by apply IH.
Qed.

Lemma scanRow_Nil (t : Table) (dests : list Dest) (jr : JoinedRow) (i : nat) (m : string) :
  dests !! i = Some (Out m) ->
  scanRow t (<[i := Nil m]> dests) jr = <[i := Untouched]> (scanRow t dests jr).
Proof.
  revert t jr i. induction dests as [|d dests IH]; intros t jr [|i] Hd; try done;
    simpl in *.
  - injection Hd as ->. destruct t as [|r t], jr as [|cell jr]; try done.
    simpl. f_equal. unfold scanOne. by destruct (TSkip r).
  - destruct t as [|r t], jr as [|cell jr]; try done.
    simpl. f_equal. by apply IH.
Qed.

Lemma compile_Nil (it : Iter) (dests : list Dest) (i : nat) (m : string) :
  dests !! i = Some (Out m) ->
  compile it (<[i := Nil m]> dests) = compile it dests.
Proof.
  intros Hd. unfold compile, tableFor, inferTable.
  rewrite (mapM_insert (destModel (orm it)) dests i (Out m) (Nil m) Hd eq_refl).
  destruct (QTable (q it)) as [t|].
  - by rewrite checkDests_Nil.
  - destruct (mapM (destModel (orm it)) dests) as [[|b rest]|e]; try done.
    destruct (joinAll _ _ _ _) as [t|e]; [|done]. by rewrite checkDests_Nil.
Qed.

Lemma advance_Nil (t : Table) (it : Iter) (dests : list Dest) (i : nat) (m : string) :
  dests !! i = Some (Out m) ->
  advance t (<[i := Nil m]> dests) it = skipAt i (advance t dests it).
Proof.
  intros Hd. unfold advance. rewrite checkDests_Nil by done.
  destruct (checkDests t dests); [|done].
  destruct (rows it); [done|]. unfold skipAt. simpl. by rewrite scanRow_Nil.
Qed.

Lemma Next_Nil (it : Iter) (dests : list Dest) (i : nat) (m : string) :
  dests !! i = Some (Out m) ->
  Next (<[i := Nil m]> dests) it = skipAt i (Next dests it).
Proof.
  intros Hd. unfold Next. destruct (err it); [done|].
  destruct (closed it); [done|]. destruct (plan it) as [t|].
  - by apply advance_Nil.
  - rewrite compile_Nil by done.
    destruct (compile it dests) as [[t rs]|e]; [|done]. by apply advance_Nil.
Qed.

Lemma drain_Nil (fuel : nat) (it : Iter) (dests : list Dest) (i : nat) (m : string) :
  dests !! i = Some (Out m) ->
  drain fuel (<[i := Nil m]> dests) it
  = ((fun out => <[i := Untouched]> out) <$> (drain fuel dests it).1,
     (drain fuel dests it).2).
Proof.
  intros Hd. revert it. induction fuel as [|fuel IH]; intros it; [done|].
  simpl. rewrite Next_Nil by done.
  destruct (Next dests it) as [[[] out] it']; unfold skipAt; simpl; [|done].
  rewrite IH. by destruct (drain fuel dests it').
Qed.

(** An executing iterator hands out its remaining rows one by one and
    then finishes without an error. *)
Lemma drain_rows (t : Table) (dests : list Dest) :
  checkDests t dests = Ok () ->
  forall (rs : list JoinedRow) (fuel : nat) (it : Iter),
    (length rs < fuel)%nat ->
    err it = None -> closed it = false -> plan it = Some t -> rows it = rs ->
    (drain fuel dests it).1 = scanRow t dests <$> rs
    /\ Err_ (drain fuel dests it).2 = None.
Proof.
  intros Hchk. induction rs as [|jr rs IH]; intros fuel it Hfuel He Hc Hp Hr;
    (destruct fuel as [|fuel]; [simpl in Hfuel; lia|]).
  - simpl. unfold Next, advance. rewrite He, Hc, Hp, Hchk, Hr. simpl. done.
  - simpl. unfold Next, advance. rewrite He, Hc, Hp, Hchk, Hr.
    match goal with
    | |- context [drain fuel dests ?it'] =>
        destruct (IH fuel it') as [IH1 IH2]; try done; [simpl in Hfuel; lia|];
        destruct (drain fuel dests it') as [outs it''] eqn:Hdr
    end.
    simpl in *. by rewrite IH1.
Qed.

Lemma checkDests_length (t : Table) (dests : list Dest) :
  checkDests t dests = Ok () -> length t = length dests.
Proof.
  revert dests. induction t as [|r t IH]; intros [|d dests] H; try done.
  simpl in *. destruct (checkDest r d); [|done]. by rewrite (IH dests H).
Qed.

Lemma scanRow_lookup (t : Table) (dests : list Dest) (jr : JoinedRow) (j : nat)
    (r : TableRef) (d : Dest) (cell : option Row) :
  t !! j = Some r -> dests !! j = Some d -> jr !! j = Some cell ->
  scanRow t dests jr !! j = Some (scanOne r d cell).
Proof.
  revert dests jr j.
  induction t as [|r' t IH]; intros [|d' dests] [|c' jr] [|j] Ht Hd Hj;
    try done; simpl in *.
  - by injection Ht as ->; injection Hd as ->; injection Hj as ->.
  - by apply IH.
Qed.

Lemma scanRow_length (t : Table) (dests : list Dest) (jr : JoinedRow) :
  length t = length dests -> length jr = length t ->
  length (scanRow t dests jr) = length t.
Proof.
  revert dests jr. induction t as [|r t IH]; intros [|d dests] [|c jr] H1 H2;
    try done; simpl in *.
  f_equal. apply IH; lia.
Qed.

(** Every row the backend returns has one cell for each table of the
    expression. *)
Lemma joinStep_length (d : DB) (ts : list Model) (r : TableRef) (n : nat)
    (acc : list JoinedRow) :
  Forall (fun jr => length jr = n) acc ->
  Forall (fun jr => length jr = S n) (joinStep d ts acc r).
Proof.
  intros Hacc. unfold joinStep. apply Forall_forall. intros jr Hjr.
  apply list_elem_of_bind in Hjr as (jr0 & Hjr & Hin).
  rewrite Forall_forall in Hacc. specialize (Hacc jr0 Hin).
  unfold extend in Hjr.
  assert (Hext : forall rs : list Row,
            jr ∈ ((fun r0 => jr0 ++ [Some r0]) <$> rs) -> length jr = S n).
  { intros rs (r0 & -> & _)%list_elem_of_fmap. rewrite length_app. simpl. lia. }
  destruct (TJoin r); [by eapply Hext|].
  destruct (matching d ts jr0 r) as [|r0 rs] eqn:Hm; [|by eapply Hext].
  apply list_elem_of_singleton in Hjr as ->. rewrite length_app. simpl. lia.
Qed.

Lemma joinRows_length (d : DB) (t : Table) :
  Forall (fun jr => length jr = length t) (joinRows d t).
Proof.
  destruct t as [|b js]; [constructor|]. unfold joinRows.
  generalize (TModel <$> b :: js). intros ts.
  assert (Hbase : Forall (fun jr : JoinedRow => length jr = 1%nat)
                    ((fun r => [Some r]) <$> rowsOf d (TModel b))).
  { apply Forall_fmap, Forall_forall. by intros. }
  revert Hbase. generalize ((fun r => [Some r]) <$> rowsOf d (TModel b)).
  change (length (b :: js)) with (1 + length js)%nat. generalize 1%nat.
  induction js as [|r js IH]; intros n acc Hacc; simpl.
  - by rewrite Nat.add_0_r.
  - replace (n + S (length js))%nat with (S n + length js)%nat by lia.
    apply IH. by apply joinStep_length.
Qed.

Lemma execute_length (d : DB) (t : Table) conds sorts :
  Forall (fun jr => length jr = length t) (execute d t conds sorts).
Proof.
  assert (Hf : Forall (fun jr => length jr = length t)
                 (List.filter (keep conds) (joinRows d t))).
  { apply Forall_forall. intros jr Hjr.
    apply list_elem_of_In, filter_In in Hjr as [Hjr _].
    apply list_elem_of_In in Hjr.
    by apply (proj1 (Forall_forall _ _) (joinRows_length d t)). }
  unfold execute. destruct sorts; [done|].
  by rewrite merge_sort_Permutation.
Qed.

Lemma compile_Ok (it : Iter) (dests : list Dest) (t : Table) (rs : list JoinedRow) :
  compile it dests = Ok (t, rs) ->
  tableFor (orm it) (q it) dests = Ok t
  /\ checkDests t dests = Ok ()
  /\ Forall (fun jr => length jr = length t) rs
  /\ exists cols,
       mapM (resolveName (TModel <$> t)) (names (q it)) = Ok cols
       /\ rs = execute (db it) t
                 (zip (take (length (Filter (q it))) cols) (CValue <$> Filter (q it)))
                 (zip (drop (length (Filter (q it))) cols) (SortBy (q it)).*2).
Proof.
  unfold compile. destruct (tableFor _ _ _) as [t0|]; [|done].
  destruct (checkDests t0 dests) as [[]|] eqn:Hchk; [|done].
  destruct (mapM _ _) as [cols|] eqn:Hcols; [|done]. intros [= <- <-].
  split; [done|]. split; [done|]. split; [apply execute_length|].
  by exists cols.
Qed.

(** A fresh iterator whose query compiles hands out the rows of the
    backend one by one and then finishes without an error. *)
Lemma drain_fresh (o : Orm) (d : DB) (qu : Q) (dests : list Dest) (t : Table)
    (rs : list JoinedRow) (fuel : nat) :
  compile (NewIter o d qu) dests = Ok (t, rs) ->
  (length rs < fuel)%nat ->
  (drain fuel dests (NewIter o d qu)).1 = scanRow t dests <$> rs
  /\ Err_ (drain fuel dests (NewIter o d qu)).2 = None.
Proof.
  intros Hcomp Hfuel. destruct (compile_Ok _ _ _ _ Hcomp) as (_ & Hchk & _ & _).
  destruct fuel as [|fuel]; [lia|].
  pose (it1 := {| orm := o; db := d; q := qu; plan := Some t;
                  rows := rs; err := None; closed := false |}).
  assert (Hnext : Next dests (NewIter o d qu) = Next dests it1).
  { unfold Next at 1. simpl. by rewrite Hcomp. }
  assert (Hdrain : drain (S fuel) dests (NewIter o d qu) = drain (S fuel) dests it1).
  { simpl. by rewrite Hnext. }
  rewrite Hdrain. by apply (drain_rows t dests Hchk rs).
Qed.

(** C10. For a query that is valid with real destinations, passing a
    typed nil pointer instead of the real destination of one table
    makes [Next] skip that table: the iteration reads every row the
    backend returns for the table expression, the filter and the sort
    of the query, as many as with the real
    destination, and ends with no error; in every row the destination
    of that table is left untouched, also where the row of that table
    did match and the real destination is filled with it, and every
    other real destination is filled with the row of its table, or
    with "no row" where an outer join found none. *)
Theorem Next_typed_nil (o : Orm) (d : DB) (qu : Q) (dests : list Dest)
    (i : nat) (m : string) (t : Table) (rs : list JoinedRow) :
  dests !! i = Some (Out m) ->
  compile (NewIter o d qu) dests = Ok (t, rs) ->
  let it := NewIter o d qu in
  let dests' := <[i := Nil m]> dests in
  (exists cols,
     mapM (resolveName (TModel <$> t)) (names qu) = Ok cols
     /\ rs = execute d t
               (zip (take (length (Filter qu)) cols) (CValue <$> Filter qu))
               (zip (drop (length (Filter qu)) cols) (SortBy qu).*2))
  /\ forall fuel, (length rs < fuel)%nat ->
    length (drain fuel dests' it).1 = length rs
    /\ length (drain fuel dests it).1 = length rs
    /\ Err_ (drain fuel dests' it).2 = None
    /\ (forall k jr, rs !! k = Some jr ->
          exists out,
            (drain fuel dests' it).1 !! k = Some out
            /\ length out = length dests
            /\ out !! i = Some Untouched
            /\ (forall j r n, j <> i -> t !! j = Some r -> TSkip r = false ->
                  dests !! j = Some (Out n) ->
                  out !! j = Some match jr !! j with
                                  | Some (Some row) => Filled row
                                  | _ => NoRow
                                  end)
            /\ (forall r row, t !! i = Some r -> TSkip r = false ->
                  jr !! i = Some (Some row) ->
                  exists out0,
                    (drain fuel dests it).1 !! k = Some out0
                    /\ out0 !! i = Some (Filled row))).
Proof.
  intros Hd Hcomp it dests'.
  destruct (compile_Ok _ _ _ _ Hcomp) as (_ & Hchk & Hrows & Hexec).
  split; [exact Hexec|]. intros fuel Hfuel.
  pose proof (checkDests_length t dests Hchk) as Hlen.
  assert (Hcomp' : compile it dests' = Ok (t, rs))
    by (unfold dests', it; by rewrite compile_Nil).
  destruct (drain_fresh o d qu dests t rs fuel Hcomp Hfuel) as [Hreal _].
  destruct (drain_fresh o d qu dests' t rs fuel Hcomp' Hfuel) as [Hnil Herr].
  fold it in Hreal, Hnil, Herr.
  split; [by rewrite Hnil, length_fmap|].
  split; [by rewrite Hreal, length_fmap|].
  split; [done|].
  intros k jr Hk.
  assert (Hjr : length jr = length t).
  { rewrite Forall_forall in Hrows. apply Hrows. by eapply list_elem_of_lookup_2. }
  assert (Hi : (i < length dests)%nat) by (by eapply lookup_lt_Some).
  exists (scanRow t dests' jr).
  split; [by rewrite Hnil, list_lookup_fmap, Hk|].
  split.
  { rewrite scanRow_length; [done| |done].
    unfold dests'. by rewrite length_insert. }
  split.
  { unfold dests'. rewrite scanRow_Nil by done.
    apply list_lookup_insert_eq.
    rewrite scanRow_length; [lia|done|done]. }
  split.
  - intros j r n Hj Ht Hskip Hdj.
    destruct (lookup_lt_is_Some_2 jr j) as [cell Hcell].
    { rewrite Hjr. by eapply lookup_lt_Some. }
    rewrite (scanRow_lookup t dests' jr j r (Out n) cell); try done.
    + unfold JoinedRow in *. rewrite Hcell.
      unfold scanOne. rewrite Hskip. by destruct cell.
    + unfold dests'. by rewrite list_lookup_insert_ne.
  - intros r row Ht Hskip Hcell. exists (scanRow t dests jr).
    split; [by rewrite Hreal, list_lookup_fmap, Hk|].
    rewrite (scanRow_lookup t dests jr i r (Out m) (Some row)); try done.
    unfold scanOne. by rewrite Hskip.
Qed.

(** *** Left joins *)

Lemma checkDest_Out (m : Model) (jt : JoinType) (on : option JoinOn) :
  checkDest {| TModel := m; TSkip := false; TJoin := jt; TOn := on |}
    (Out (ModelName m)) = Ok ().
Proof. unfold checkDest. simpl. by rewrite bool_decide_eq_true_2. Qed.

Lemma filter_keep_nil (l : list JoinedRow) : List.filter (keep []) l = l.
Proof. induction l as [|x l IH]; [done|]. simpl. by rewrite IH. Qed.

Lemma scan_left_join (d : DB) (T E : Model) (c : JoinOn) (rs : list Row) :
  scanRow (TableOf T ++ [leftJoinRef E c]) [Out (ModelName T); Out (ModelName E)]
    <$> (((fun r => [Some r]) <$> rs) ≫= extend d [T; E] (leftJoinRef E c))
  = rs ≫= leftJoined d T E c.
Proof.
  induction rs as [|r rs IH]; [done|].
  rewrite fmap_cons, !bind_cons, fmap_app, IH. f_equal.
  unfold extend, leftJoined, referrers.
  change (TJoin (leftJoinRef E c)) with LeftJoin.
  destruct (matching d [T; E] [Some r] (leftJoinRef E c)) as [|e es]; [done|].
  rewrite <- list_fmap_compose. reflexivity.
Qed.

Section LeftJoin.

Context (o : Orm) (d : DB) (T E : Model) (c : JoinOn).

Hypothesis HT : lookupModel (Models o) (ModelName T) = Some T.
Hypothesis HE : lookupModel (Models o) (ModelName E) = Some E.
Hypothesis Hjoin : findJoin (References o) [T] E = Ok c.

Let joined : TableRef := leftJoinRef E c.

Let it0 : Iter :=
  NewIter o d {| Filter := []; SortBy := []; QTable := None; QJoin := LeftJoin |}.

Let dests0 : list Dest := [Out (ModelName T); Out (ModelName E)].

Local Abbreviation referrers := (referrers d T E c).
Local Abbreviation leftJoined := (leftJoined d T E c).

Lemma leftJoined_length t : length (leftJoined t) = (1 `max` length (referrers t))%nat.
Proof.
  unfold Iteration.leftJoined. destruct (referrers t) as [|e rs]; [done|].
  rewrite length_fmap. simpl. lia.
Qed.

Lemma drain_left_join (fuel : nat) :
  (length (rowsOf d T ≫= leftJoined) < fuel)%nat ->
  (drain fuel dests0 it0).1 = rowsOf d T ≫= leftJoined
  /\ Err_ (drain fuel dests0 it0).2 = None.
Proof.
  intros Hfuel.
  set (t := TableOf T ++ [joined]).
  assert (Hcomp : compile it0 dests0 = Ok (t, joinRows d t)).
  { unfold compile, tableFor, inferTable, dests0, it0. simpl.
    rewrite HT, HE. simpl. unfold Join. simpl. rewrite Hjoin. simpl.
    rewrite !checkDest_Out.
    unfold execute. by rewrite filter_keep_nil. }
  assert (Hchk : checkDests t dests0 = Ok ()).
  { simpl. unfold joined, leftJoinRef. by rewrite !checkDest_Out. }
  assert (Hrows : scanRow t dests0 <$> joinRows d t = rowsOf d T ≫= leftJoined).
  { unfold joinRows, t. simpl. unfold joinStep. apply scan_left_join. }
  destruct fuel as [|fuel]; [lia|].
  pose (it1 := {| orm := o; db := d; q := q it0; plan := Some t;
                  rows := joinRows d t; err := None; closed := false |}).
  assert (Hnext : Next dests0 it0 = Next dests0 it1).
  { unfold Next at 1. simpl. by rewrite Hcomp. }
  assert (Hdrain : drain (S fuel) dests0 it0 = drain (S fuel) dests0 it1).
  { simpl. by rewrite Hnext. }
  rewrite Hdrain, <- Hrows. apply (drain_rows t dests0 Hchk (joinRows d t)); try done.
  rewrite <- (length_fmap (scanRow t dests0)), Hrows. done.
Qed.

End LeftJoin.

Lemma sum_list_cons (x : nat) (l : list nat) : sum_list (x :: l) = (x + sum_list l)%nat.
Proof. reflexivity. Qed.

Lemma length_bind_sum {A B} (g : A -> list B) (l : list A) :
  length (l ≫= g) = sum_list ((fun x => length (g x)) <$> l).
Proof.
  induction l as [|x l IH]; [done|].
  by rewrite bind_cons, length_app, IH, fmap_cons, sum_list_cons.
Qed.

(** C5, as the code has it. Iterating the left join of a referenced
    table with a referencing table, with no filter, reads for every
    referenced row one row per referencing row that refers to it, and
    one row with "no row" in the referencing destination when there is
    none; the iteration ends without an error. So it reads at least as
    many rows as the referenced table has, and exactly as many when no
    referenced row is referred to twice. *)
Theorem left_join_rows (o : Orm) (d : DB) (T E : Model) (c : JoinOn) :
  lookupModel (Models o) (ModelName T) = Some T ->
  lookupModel (Models o) (ModelName E) = Some E ->
  findJoin (References o) [T] E = Ok c ->
  let it := NewIter o d {| Filter := []; SortBy := []; QTable := None;
                           QJoin := LeftJoin |} in
  let dests := [Out (ModelName T); Out (ModelName E)] in
  let outs := rowsOf d T ≫= leftJoined d T E c in
  (forall fuel, (length outs < fuel)%nat ->
     (drain fuel dests it).1 = outs /\ Err_ (drain fuel dests it).2 = None)
  /\ length outs
     = sum_list ((fun t => (1 `max` length (referrers d T E c t))%nat) <$> rowsOf d T)
  /\ (length (rowsOf d T) <= length outs)%nat
  /\ ((forall t, t ∈ rowsOf d T -> (length (referrers d T E c t) <= 1)%nat) ->
      length outs = length (rowsOf d T))
  /\ (forall t, t ∈ rowsOf d T -> referrers d T E c t = [] ->
        [Filled t; NoRow] ∈ outs).
Proof.
  intros HT HE Hjoin it dests outs.
  assert (Hlen : length outs
            = sum_list ((fun t => (1 `max` length (referrers d T E c t))%nat)
                          <$> rowsOf d T)).
  { unfold outs. rewrite length_bind_sum. f_equal.
    apply list_fmap_ext. intros _ t _. apply leftJoined_length. }
  split; [|split; [done|split; [|split]]].
  - intros fuel Hfuel. by apply drain_left_join.
  - rewrite Hlen. clear.
    induction (rowsOf d T) as [|t l IH]; [done|].
    rewrite fmap_cons, sum_list_cons, length_cons. lia.
  - intros Hone. rewrite Hlen. clear Hlen.
    induction (rowsOf d T) as [|t l IH]; [done|].
    rewrite fmap_cons, sum_list_cons, length_cons.
    rewrite IH by (intros t' Ht'; apply Hone; by right).
    pose proof (Hone t ltac:(left)). lia.
  - intros t Ht Hnone. unfold outs. apply list_elem_of_bind.
    exists t. split; [|done]. unfold leftJoined. rewrite Hnone. left.
Qed.

End IterFacts.

(** *** The scenarios of the reference tests *)

Section TestScenarios.
Import Go Driver Orm Iteration.

Let both : list Dest := [Out "Timestamp"; Out "Event"].

Example testOrm_Initialize : Initialize (registry [Event; Timestamp]) = Ok testOrm.
Proof. reflexivity. Qed.

(** [Query(Eq("Id", 1))]: ambiguous. *)
Example test_ambiguous :
  let r := drain 10 both (NewIter testOrm testDB (Query [eq_ "Id" 1])) in
  r.1 = [] /\ Err_ r.2 = Some (ErrAmbiguousField "Id").
Proof. vm_compute. done. Qed.

(** The events of the first timestamp, by event id. *)
Example test_events_of_timestamp :
  let r := drain 10 both
             (NewIter testOrm testDB (Sort (Query [eq_ "Timestamp|Id" 1]) "Event|Id" ASC)) in
  r.1 = [[Filled t1; Filled E1]; [Filled t1; Filled E2]; [Filled t1; Filled E3]]
  /\ Err_ r.2 = None.
Proof. vm_compute. done. Qed.

(** The same, ignoring the timestamp with a typed nil. *)
Example test_typed_nil :
  let r := drain 10 [Nil "Timestamp"; Out "Event"]
             (NewIter testOrm testDB (Sort (Query [eq_ "Timestamp|Id" 1]) "Event|Name" ASC)) in
  r.1 = [[Untouched; Filled E1]; [Untouched; Filled E2]; [Untouched; Filled E3]]
  /\ Err_ r.2 = None.
Proof. vm_compute. done. Qed.

(** An untyped nil where the table has to be inferred. *)
Example test_untyped_nil :
  let r := drain 10 [UntypedNil; Out "Event"]
             (NewIter testOrm testDB (Query [eq_ "Timestamp|Id" 1])) in
  r.1 = [] /\ Err_ r.2 = Some errUntypedNilPointer.
Proof. vm_compute. done. Qed.

(** The timestamp without events, left joined. *)
Example test_left_join_no_event :
  let r := drain 10 both
             (NewIter testOrm testDB (WithJoin (Query [eq_ "Timestamp|Id" 2]) LeftJoin)) in
  r.1 = [[Filled t2; NoRow]] /\ Err_ r.2 = None.
Proof. vm_compute. done. Qed.

(** The second event with its timestamp, the destinations in either
    order. *)
Example test_event_with_timestamp :
  let q := Query [eq_ "Event|Id" 2] in
  (drain 10 [Out "Event"; Out "Timestamp"] (NewIter testOrm testDB q)).1
  = [[Filled E2; Filled t1]]
  /\ (drain 10 both (NewIter testOrm testDB q)).1 = [[Filled t1; Filled E2]].
Proof. vm_compute. done. Qed.

(** The event without a timestamp, left joined from the events. *)
Example test_left_join_no_timestamp :
  let r := drain 10 [Out "Event"; Out "Timestamp"]
             (NewIter testOrm testDB
                (WithTable (Query [eq_ "Event|Id" 4]) eventLeftJoinTimestamp)) in
  r.1 = [[Filled E4; NoRow]] /\ Err_ r.2 = None.
Proof. vm_compute. done. Qed.

End TestScenarios.



(** C5, as stated, fails: the referenced table has two rows, the first
    referred to by three events, and the left join from it reads four
    rows. *)
Lemma left_join_reads_more_rows :
  let it := Iteration.NewIter Iteration.testOrm Iteration.testDB
              (Iteration.WithJoin (Iteration.Query []) Iteration.LeftJoin) in
  let dests := [Iteration.Out "Timestamp"; Iteration.Out "Event"] in
  length (Iteration.rowsOf Iteration.testDB Orm.Timestamp) = 2%nat
  /\ length (Iteration.rowsOf Iteration.testDB Orm.Event) = 4%nat
  /\ length (Iteration.drain 10 dests it).1 = 4%nat
  /\ Iteration.Err_ (Iteration.drain 10 dests it).2 = None
  /\ length (Iteration.drain 10 dests it).1
     <> length (Iteration.rowsOf Iteration.testDB Orm.Timestamp).
Proof. vm_compute. repeat split; discriminate. Qed.

(** Instances of the iterator theorems on the data of the tests. *)



Lemma Next_typed_nil_witness :
  let it := Iteration.NewIter Iteration.testOrm Iteration.testDB
              (Iteration.Sort (Iteration.Query [Iteration.eq_ "Timestamp|Id" 1])
                 "Event|Name" Iteration.ASC) in
  length (Iteration.drain 10 [Iteration.Nil "Timestamp"; Iteration.Out "Event"] it).1
  = 3%nat
  /\ Iteration.Err_
       (Iteration.drain 10 [Iteration.Nil "Timestamp"; Iteration.Out "Event"] it).2
     = None
  /\ exists out,
       (Iteration.drain 10 [Iteration.Nil "Timestamp"; Iteration.Out "Event"] it).1
         !! 0%nat = Some out
       /\ out !! 0%nat = Some Iteration.Untouched
       /\ out !! 1%nat = Some (Iteration.Filled Iteration.E1).
Proof.
  intros it.
  destruct (Next_typed_nil Iteration.testOrm Iteration.testDB
              (Iteration.Sort (Iteration.Query [Iteration.eq_ "Timestamp|Id" 1])
                 "Event|Name" Iteration.ASC)
              [Iteration.Out "Timestamp"; Iteration.Out "Event"]
              0 "Timestamp" Iteration.timestampJoinEvent
              [[Some Iteration.t1; Some Iteration.E1];
               [Some Iteration.t1; Some Iteration.E2];
               [Some Iteration.t1; Some Iteration.E3]]
              eq_refl eq_refl)
    as (_ & Hrun).
  destruct (Hrun 10%nat) as (Hlen & _ & Herr & Hrow).
  - simpl. lia.
  - split; [exact Hlen|]. split; [exact Herr|].
    destruct (Hrow 0%nat [Some Iteration.t1; Some Iteration.E1] eq_refl)
      as (out & Hout & _ & Hi & Hothers & _).
    exists out. split; [exact Hout|]. split; [exact Hi|].
    apply (Hothers 1%nat
             {| Iteration.TModel := Orm.Event; Iteration.TSkip := false;
                Iteration.TJoin := Iteration.InnerJoin;
                Iteration.TOn := Some {| Iteration.OnLeft := 0;
                                         Iteration.OnLeftField := "Id";
                                         Iteration.OnRightField := "Timestamp" |} |}
             "Event"); [discriminate | reflexivity | reflexivity | reflexivity].
Defined.

Lemma left_join_rows_witness :
  (Iteration.drain 10 [Iteration.Out "Timestamp"; Iteration.Out "Event"]
     (Iteration.NewIter Iteration.testOrm Iteration.testDB
        {| Iteration.Filter := []; Iteration.SortBy := [];
           Iteration.QTable := None; Iteration.QJoin := Iteration.LeftJoin |})).1
  = Iteration.rowsOf Iteration.testDB Orm.Timestamp
      ≫= Iteration.leftJoined Iteration.testDB Orm.Timestamp Orm.Event
            {| Iteration.OnLeft := 0; Iteration.OnLeftField := "Id";
               Iteration.OnRightField := "Timestamp" |}.
Proof.
  destruct (left_join_rows Iteration.testOrm Iteration.testDB Orm.Timestamp Orm.Event
              {| Iteration.OnLeft := 0; Iteration.OnLeftField := "Id";
                 Iteration.OnRightField := "Timestamp" |}
              eq_refl eq_refl eq_refl) as (Hdrain & _).
  destruct (Hdrain 10%nat) as (Houts & _).
  - vm_compute. lia.
  - exact Houts.
Defined.

(** ** The effects of [Scan] *)

Section ScanEffects.
Import Go Driver Sql SqlRun.

Variable Sprint : GoValue -> string.

Local Arguments copy_bytes : simpl never.
Local Arguments make_bytes : simpl never.

Lemma Set_effects out v st st' :
  Set_ out v st = Return st' -> only_writes out st st' /\ arrays st' = arrays st.
Proof.
  unfold Set_. destruct (vars st !! out) as [cur|]; [|done].
  destruct (AssignableTo _ _); [|done]. intros [= <-].
  split; [|done]. split_and!; try done.
  intros o Ho. simpl. by apply lookup_insert_ne.
Qed.

Lemma SetInt_effects out x st st' :
  SetInt out x st = Return st' -> only_writes out st st'.
Proof.
  unfold SetInt. destruct (vars st !! out) as [cur|]; [|done].
  destruct (intWidth _); [|done]. intros [= <-].
  split_and!; try done.
  intros o Ho. simpl. by apply lookup_insert_ne.
Qed.

Lemma SetBool_effects out x st st' :
  SetBool out x st = Return st' -> only_writes out st st'.
Proof.
  unfold SetBool. destruct (vars st !! out) as [cur|]; [|done].
  destruct (bool_decide _); [|done]. intros [= <-].
  split_and!; try done.
  intros o Ho. simpl. by apply lookup_insert_ne.
Qed.

Lemma SetString_effects out x st st' :
  SetString out x st = Return st' -> only_writes out st st'.
Proof.
  unfold SetString. destruct (vars st !! out) as [cur|]; [|done].
  destruct (bool_decide _); [|done]. intros [= <-].
  split_and!; try done.
  intros o Ho. simpl. by apply lookup_insert_ne.
Qed.

(** The copy [Scan] makes touches one fresh array only, whatever the
    source slice is. *)
Lemma make_copy_effects st x n b st1 :
  make_bytes n st = (b, st1) ->
  let st2 := copy_bytes b x st1 in
  vars st2 = vars st /\ objs st2 = objs st
  /\ simpleScannerPool st2 = simpleScannerPool st
  /\ (forall a, a ∈ dom (arrays st) -> arrays st2 !! a = arrays st !! a).
Proof.
  intros Hmk. unfold make_bytes in Hmk. injection Hmk as <- <-.
  unfold copy_bytes. simpl. split_and!; try done.
  intros a Ha. rewrite insert_insert_eq.
  apply lookup_insert_ne. intros <-. by apply (is_fresh (dom (arrays st))).
Qed.

Lemma Scan_effects s src st e st' :
  Scan Sprint s src st = Return (e, st') ->
  forall sc, objs st !! s = Some sc -> only_writes (Out sc) st st'.
Proof.
  intros HS sc Hs.
  assert (Hkeep : only_writes (Out sc) st st) by (by split_and!).
  assert (Hbind : forall (o : Outcome State),
            (st1 ← o; Return (@None string, st1)) = Return (e, st') ->
            o = Return st').
  { intros [st1|]; simpl; [|done]. by intros [= _ ->]. }
  destruct src as [v|]; [destruct v as [| w | | | | | | | | | |]; try destruct w|];
    unfold Scan in HS; try (injection HS as <- <-; exact Hkeep);
    unfold deref in HS; rewrite Hs in HS;
    destruct (vars st !! Out sc) as [cur|]; try done; simpl in HS.
  - apply Hbind in HS. by apply SetBool_effects in HS.
  - apply Hbind in HS. by apply SetInt_effects in HS.
  - apply Hbind in HS. by apply SetString_effects in HS.
  - apply Hbind in HS.
    destruct (bool_decide (KindOf (TypeOf cur) = String));
      [by apply SetString_effects in HS|].
    destruct (bool_decide (0 < slice_len x)%nat);
      [|by apply Set_effects in HS as [? _]].
    destruct (negb (Has (Tag sc) "raw"));
      [|by apply Set_effects in HS as [? _]].
    destruct (make_copy_effects st x (slice_len x) _ _ eq_refl)
      as (Hv & Ho & Hp & Ha).
    apply Set_effects in HS as [(Ho' & Hp' & _ & Hv') Harr].
    split_and!.
    + by rewrite Ho', Ho.
    + by rewrite Hp', Hp.
    + intros a Hin. rewrite Harr. by apply Ha.
    + intros o Hne. rewrite Hv' by done. by rewrite Hv.
  - apply Hbind in HS. by apply Set_effects in HS as [? _].
  - apply Hbind in HS. by apply Set_effects in HS as [? _].
Qed.

Lemma Scan_changes (s : nat) (src : option GoValue) (st st' : State)
    (e : option string) :
  Scan Sprint s src st = Return (e, st') ->
  objs st' = objs st
  /\ simpleScannerPool st' = simpleScannerPool st
  /\ (forall a, a ∈ dom (arrays st) -> arrays st' !! a = arrays st !! a)
  /\ (forall sc o, objs st !! s = Some sc -> o <> Out sc ->
        vars st' !! o = vars st !! o)
  /\ (objs st !! s = None -> st' = st)
  /\ (e <> None -> st' = st).
Proof.
  intros HS.
  assert (Herr : objs st !! s = None \/ e <> None -> st' = st).
  { intros Hcase.
    destruct src as [v|]; [destruct v as [| w | | | | | | | | | |]; try destruct w|];
      unfold Scan in HS; try (by injection HS as <- <-);
      exfalso; unfold deref in HS;
      (destruct Hcase as [Hn|He];
       [ by rewrite Hn in HS
       | destruct (objs st !! s) as [sc|]; [|done];
         destruct (vars st !! Out sc) as [cur|]; [|done]; simpl in HS;
         match type of HS with
         | (?o ≫= _) = _ => destruct o; simpl in HS; [|done]
         end;
         injection HS as <- _; by apply He ]). }
  destruct (objs st !! s) as [sc|] eqn:Hs.
  - destruct (Scan_effects s src st e st' HS sc Hs) as (Ho & Hp & Ha & Hv).
    split_and!; try done.
    + intros sc' o [= <-]. apply Hv.
    + intros He. apply Herr. by right.
  - rewrite (Herr (or_introl eq_refl)). split_and!; done.
Qed.

(** X1. A call of [Scan] that returns has changed no scanner and not
    the pool, no variable other than the one its [Out] addresses, and
    no byte array that existed before the call; a call that returns an
    error has changed nothing at all. *)
Theorem Scan_frame (s : nat) (src : option GoValue) (st st' : State)
    (e : option string) :
  Scan Sprint s src st = Return (e, st') ->
  objs st' = objs st
  /\ simpleScannerPool st' = simpleScannerPool st
  /\ (forall a, a ∈ dom (arrays st) -> arrays st' !! a = arrays st !! a)
  /\ (forall sc o, objs st !! s = Some sc -> o <> Out sc ->
        vars st' !! o = vars st !! o)
  /\ (objs st !! s = None -> st' = st)
  /\ (e <> None -> st' = st).
Proof. apply Scan_changes. Qed.


End ScanEffects.

(** ** Using the scanner and the pool *)

Section ScannerUse.
Import Go Driver Sql SqlRun.

Variable Sprint : GoValue -> string.

Lemma wrap_id w x :
  - 2 ^ (bits w - 1) <= x < 2 ^ (bits w - 1) -> wrap w x = x.
Proof.
  intros Hx. unfold wrap.
  assert (H2 : 2 ^ bits w = 2 * 2 ^ (bits w - 1)) by (by destruct w).
  rewrite Z.mod_small by lia. lia.
Qed.

Lemma wrap_range w x : - 2 ^ (bits w - 1) <= wrap w x < 2 ^ (bits w - 1).
Proof.
  unfold wrap.
  assert (H2 : 2 ^ bits w = 2 * 2 ^ (bits w - 1)) by (by destruct w).
  assert (0 < 2 ^ bits w) by (by destruct w).
  pose proof (Z.mod_pos_bound (x + 2 ^ (bits w - 1)) (2 ^ bits w)). lia.
Qed.

Lemma wrap_congruent w x : (wrap w x - x) mod 2 ^ bits w = 0.
Proof.
  unfold wrap.
  assert (Hpos : 2 ^ bits w <> 0) by (by destruct w).
  rewrite (Z.mod_eq (x + 2 ^ (bits w - 1))) by done.
  replace (x + 2 ^ (bits w - 1)
           - 2 ^ bits w * ((x + 2 ^ (bits w - 1)) / 2 ^ bits w)
           - 2 ^ (bits w - 1) - x)
    with (- ((x + 2 ^ (bits w - 1)) / 2 ^ bits w) * 2 ^ bits w) by lia.
  by apply Z.mod_mul.
Qed.

(** X16. [Scan] does not check the range of an integer: an [int64]
    scanned into a variable of a signed integer kind of fewer bits is
    stored without error or panic as the value of that width congruent
    to it modulo two to the width, which is the integer itself exactly
    when it fits the width. *)
Theorem Scan_int64_truncates (s : nat) (st : State) (sc : simpleScanner)
    (cur : GoValue) (w : IntWidth) (x : Z) :
  objs st !! s = Some sc ->
  vars st !! Out sc = Some cur ->
  intWidth (KindOf (TypeOf cur)) = Some w ->
  exists st',
    Scan Sprint s (Some (VInt W64 x)) st = Return (None, st')
    /\ vars st' !! Out sc = Some (withType (TypeOf cur) (VInt w (wrap w x)))
    /\ - 2 ^ (bits w - 1) <= wrap w x < 2 ^ (bits w - 1)
    /\ (wrap w x - x) mod 2 ^ bits w = 0
    /\ (wrap w x = x <-> - 2 ^ (bits w - 1) <= x < 2 ^ (bits w - 1)).
Proof.
  intros Hs Hout Hw. unfold Scan.
  rewrite (deref_Return _ _ _ _ Hs Hout). simpl.
  unfold SetInt. rewrite Hout, Hw. simpl.
  eexists. split; [reflexivity|]. simpl. rewrite lookup_insert_eq.
  split; [done|]. split; [apply wrap_range|]. split; [apply wrap_congruent|].
  split; [|apply wrap_id].
  intros <-. apply wrap_range.
Qed.

(** X3. The pool is first in, first out: after [Put] on a pool with
    room, [Scanner] hands out the oldest waiting scanner, which is the
    one just put when the pool was empty, with its fields set to the
    new arguments; the others keep waiting in their order. *)
Theorem Put_then_Scanner (val : nat) (tag : Driver.Tag) (s : nat) (st : State) :
  pool_ok st ->
  (length (buf (simpleScannerPool st)) < 64)%nat ->
  is_Some (objs st !! s) ->
  exists s' st',
    Scanner val tag (Put s st) = Return (s', st')
    /\ head (buf (simpleScannerPool st) ++ [s]) = Some s'
    /\ buf (simpleScannerPool st') = tail (buf (simpleScannerPool st) ++ [s])
    /\ objs st' !! s' = Some {| Out := val; Tag := tag |}
    /\ (buf (simpleScannerPool st) = [] ->
          s' = s /\ buf (simpleScannerPool st') = []).
Proof.
  intros Hok Hroom Hs.
  destruct (Scanner_spec val tag (Put s st) (Put_pool_ok s st Hok Hs))
    as (s' & st' & Hr & Ho & _ & Hcase & _).
  exists s', st'. split; [done|].
  destruct Hok as (Hcap & _).
  rewrite Put_room in Hcase by lia. simpl in Hcase.
  destruct (buf (simpleScannerPool st)) as [|s0 rest]; simpl in *;
    destruct Hcase as [-> ->]; split_and!; try done.
Qed.

Lemma step_pool_ok st st' : step Sprint st st' -> pool_ok st -> pool_ok st'.
Proof.
  intros Hstep Hok. destruct Hstep as [val tag st s st' Hr | s st Hs | s src st e st' Hr | st v a].
  - destruct (Scanner_spec val tag st Hok) as (s0 & st0 & Hr0 & _ & Hok' & _).
    rewrite Hr0 in Hr. by injection Hr as _ <-.
  - by apply Put_pool_ok.
  - destruct (Scan_changes Sprint _ _ _ _ _ Hr) as (Ho & Hp & _).
    unfold pool_ok. by rewrite Ho, Hp.
  - done.
Qed.

Lemma reachable_ok st : reachable Sprint st -> pool_ok st.
Proof.
  unfold reachable. revert st. apply rtc_ind_r; [apply pool_ok_init|].
  intros st st' _ Hstep Hok. by eapply step_pool_ok.
Qed.

(** X4. In every state a program reaches from the initial one by calls
    of [Scanner], of [Put] on allocated scanners and of [Scan], between
    writes of other code to variables and arrays, the pool holds at
    most 64 scanners, all of them allocated; so [Scanner] never panics
    there, and returns a scanner with the fields it was given. *)
Theorem reachable_pool_ok (st : State) :
  reachable Sprint st ->
  pool_ok st
  /\ (length (buf (simpleScannerPool st)) <= 64)%nat
  /\ (forall val tag,
        exists s st',
          Scanner val tag st = Return (s, st')
          /\ objs st' !! s = Some {| Out := val; Tag := tag |}
          /\ reachable Sprint st').
Proof.
  intros Hr. pose proof (reachable_ok st Hr) as Hok.
  split; [done|]. split; [by destruct Hok as (_ & ? & _)|].
  intros val tag.
  destruct (Scanner_spec val tag st Hok) as (s & st' & HS & Ho & _).
  exists s, st'. split_and!; try done.
  eapply rtc_r; [exact Hr|]. by eapply step_Scanner.
Qed.

(** X5. [Put] does not check whether the scanner already waits in the
    pool: after two calls of [Put] on the same scanner, the next two
    calls of [Scanner] return that same scanner, and the second call
    overwrites the destination and tag the first caller was given. *)
Theorem Put_twice_aliases (v1 v2 : nat) (t1 t2 : Driver.Tag) (s : nat) (st : State) :
  pool_ok st ->
  buf (simpleScannerPool st) = [] ->
  is_Some (objs st !! s) ->
  exists st1 st2,
    Scanner v1 t1 (Put s (Put s st)) = Return (s, st1)
    /\ objs st1 !! s = Some {| Out := v1; Tag := t1 |}
    /\ Scanner v2 t2 st1 = Return (s, st2)
    /\ objs st2 !! s = Some {| Out := v2; Tag := t2 |}.
Proof.
  intros (Hcap & _) Hbuf [sc Hs].
  unfold Put, trySend. rewrite Hbuf, Hcap. simpl.
  unfold Scanner, tryRecv. simpl. rewrite Hs. simpl.
  eexists _, _. split; [reflexivity|]. simpl.
  rewrite lookup_insert_eq. simpl.
  split; [done|]. split; [reflexivity|]. simpl. by rewrite lookup_insert_eq.
Qed.

(** X6. [Put] does not dereference its receiver: called on a nil
    pointer while the pool is empty, it sends the nil pointer to the
    pool, and the next call of [Scanner] panics when it assigns the
    fields of what it received. *)
Theorem Put_nil_then_Scanner (val : nat) (tag : Driver.Tag) (s : nat) (st : State) :
  pool_ok st ->
  buf (simpleScannerPool st) = [] ->
  objs st !! s = None ->
  buf (simpleScannerPool (Put s st)) = [s]
  /\ Scanner val tag (Put s st) = Panic.
Proof.
  intros (Hcap & _) Hbuf Hs.
  unfold Put, trySend. rewrite Hbuf, Hcap. simpl. split; [done|].
  unfold Scanner, tryRecv. simpl. by rewrite Hs.
Qed.

(** X7. One use of a scanner: [Scanner] for a variable of a signed
    integer kind, [Scan] of an [int64] that fits its width, then
    [Put]. Whether the scanner came from the pool or was allocated,
    the variable then holds that integer with its type unchanged, no
    other variable has changed, and the pool is in order again. *)
Theorem Scanner_Scan_Put (val : nat) (tag : Driver.Tag) (x : Z) (st : State)
    (cur : GoValue) (w : IntWidth) :
  pool_ok st ->
  vars st !! val = Some cur ->
  intWidth (KindOf (TypeOf cur)) = Some w ->
  - 2 ^ (bits w - 1) <= x < 2 ^ (bits w - 1) ->
  exists s st1 st2,
    Scanner val tag st = Return (s, st1)
    /\ Scan Sprint s (Some (VInt W64 x)) st1 = Return (None, st2)
    /\ vars st2 !! val = Some (withType (TypeOf cur) (VInt w x))
    /\ (forall o, o <> val -> vars st2 !! o = vars st !! o)
    /\ arrays st2 = arrays st
    /\ pool_ok (Put s st2).
Proof.
  intros Hok Hcur Hw Hx.
  destruct (Scanner_spec val tag st Hok)
    as (s & st1 & HS & Ho & Hok1 & _ & _ & Hv & Ha).
  exists s, st1.
  assert (Hcur1 : vars st1 !! Out {| Out := val; Tag := tag |} = Some cur)
    by (by rewrite Hv).
  unfold Scan. rewrite (deref_Return _ _ _ _ Ho Hcur1). simpl.
  unfold SetInt. rewrite Hv, Hcur, Hw. simpl.
  eexists. split; [done|]. split; [reflexivity|]. simpl.
  rewrite lookup_insert_eq, (wrap_id w x Hx).
  split_and!; try done.
  - intros o Hne. by apply lookup_insert_ne.
  - apply Put_pool_ok.
    + destruct Hok1 as (? & ? & ?). by split_and!.
    + simpl. by rewrite Ho.
Qed.

End ScannerUse.

(** ** Allocation of scanners *)

Section Alloc.
Import Go Driver Sql SqlRun.

(** X17. [Scanner] allocates only when the pool is empty: when a
    scanner waits in the pool the set of allocated scanners stays the
    same, and otherwise it grows by exactly the scanner returned,
    whose address no scanner had before. *)
Theorem Scanner_allocates_iff (val : nat) (tag : Driver.Tag) (st st' : State) (s : nat) :
  pool_ok st ->
  Scanner val tag st = Return (s, st') ->
  (buf (simpleScannerPool st) <> [] -> dom (objs st') = dom (objs st))
  /\ (buf (simpleScannerPool st) = [] ->
        (s ∉ dom (objs st)) /\ dom (objs st') = {[ s ]} ∪ dom (objs st))
  /\ (dom (objs st') = dom (objs st) <-> buf (simpleScannerPool st) <> []).
Proof.
  intros (_ & _ & Hall). unfold Scanner, tryRecv.
  destruct (buf (simpleScannerPool st)) as [|s0 rest] eqn:Hbuf.
  - intros [= <- <-]. simpl.
    assert (Hfresh : fresh (dom (objs st)) ∉ dom (objs st)) by apply is_fresh.
    split; [done|]. split; [by rewrite dom_insert_L|].
    split; [|done]. rewrite dom_insert_L. intros Heq. exfalso.
    apply Hfresh.
    assert (Hin : fresh (dom (objs st))
                  ∈ ({[fresh (dom (objs st))]} : gset nat) ∪ dom (objs st))
      by (apply elem_of_union; left; by apply elem_of_singleton).
    by rewrite Heq in Hin.
  - simpl. inversion Hall as [|? ? [sc Hsc] _]; subst. rewrite Hsc.
    intros [= <- <-]. simpl.
    assert (Hdom : dom (<[s0 := {| Out := val; Tag := tag |}]> (objs st)) = dom (objs st)).
    { rewrite dom_insert_L. apply elem_of_dom_2 in Hsc.
      by apply subseteq_union_1_L, singleton_subseteq_l. }
    split; [done|]. split; [done|]. by split.
Qed.

End Alloc.


(** ** The helpers of the reference tests *)

Section ReferencesTestFacts.
Import ReferencesTest.

Lemma index_out_of_range {A} (l : list A) (i : Z) :
  i < 0 \/ Z.of_nat (length l) <= i -> index l i = Panic.
Proof.
  intros Hi. unfold index. case_bool_decide; [|done].
  rewrite lookup_ge_None_2; [done|lia].
Qed.

(** X8. [testEvent] reads [eventNames[pos]] only for a position from 0
    to 2 and a non-nil event. For a negative position it replaces
    [pos] by [len(eventNames) - pos], which lies past the end of the
    three names (or, on overflow, below zero), so that the index
    expression panics: a negative position never counts from the end. *)
Theorem testEvent_panics_iff (event : option Event) (pos : Z) :
  - 2 ^ 63 <= pos < 2 ^ 63 ->
  (testEvent event pos = Panic <-> pos < 0 \/ 3 <= pos \/ event = None)
  /\ (forall e expect,
        event = Some e -> eventNames !! Z.to_nat pos = Some expect -> 0 <= pos ->
        testEvent event pos = Return (bool_decide (expect <> Name e))).
Proof.
  intros Hpos. split.
  - unfold testEvent. case_bool_decide as Hneg.
    + split; [auto|]. intros _.
      rewrite index_out_of_range; [done|].
      unfold Go.wrap. simpl Go.bits. simpl length.
      change (2 ^ (64 - 1)) with 9223372036854775808.
      change (2 ^ 64) with 18446744073709551616.
      change (2 ^ 63) with 9223372036854775808 in Hpos.
      destruct (decide (3 - pos < 9223372036854775808)) as [Hlt|Hge].
      * right. rewrite Z.mod_small by lia. lia.
      * left.
        replace (Z.of_nat 3 - pos + 9223372036854775808)
          with ((3 - pos - 9223372036854775808) + 1 * 18446744073709551616)
          by lia.
        rewrite Z_mod_plus_full, Z.mod_small by lia. lia.
    + destruct (decide (3 <= pos)) as [Hbig|Hsmall].
      * rewrite index_out_of_range by (simpl; lia). simpl. split; auto.
      * unfold index. rewrite bool_decide_eq_true_2 by lia.
        destruct (lookup_lt_is_Some_2 eventNames (Z.to_nat pos)) as [expect He];
          [simpl; lia|].
        rewrite He. simpl. destruct event as [e|]; split; try done.
        -- intros [?|[?|?]]; [lia|lia|done].
        -- auto.
  - intros e expect -> He H0. unfold testEvent, index.
    rewrite (bool_decide_eq_false_2 (pos < 0)) by lia.
    rewrite bool_decide_eq_true_2 by lia. by rewrite He.
Qed.

End ReferencesTestFacts.

(** ** Facts about [strings.Index] and string slices *)

Section StringsFacts.
Import Text Strings.

Lemma length_append (a b : string) :
  String.length (a +:+ b) = (String.length a + String.length b)%nat.
Proof. induction a as [|c a IH]; [done|]. rewrite append_cons. simpl. by rewrite IH. Qed.

Lemma append_assoc (a b c : string) : (a +:+ b) +:+ c = a +:+ (b +:+ c).
Proof.
  induction a as [|d a IH]; [by rewrite !append_nil|].
  rewrite !append_cons. by rewrite IH.
Qed.

Lemma upto_append (a r : string) : upto (String.length a) (a +:+ r) = a.
Proof.
  induction a as [|c a IH]; [by destruct r|].
  rewrite append_cons. simpl. by rewrite IH.
Qed.

Lemma from_append (a r : string) (k : nat) :
  from (String.length a + k) (a +:+ r) = from k r.
Proof.
  induction a as [|c a IH]; [by rewrite append_nil|].
  rewrite append_cons. simpl. by rewrite IH.
Qed.

Lemma Index_None_iff (s sep : string) :
  Index s sep = None <-> Contains s sep = false.
Proof.
  induction s as [|c s IH].
  - simpl. destruct (HasPrefix "" sep); simpl; split; done.
  - simpl. destruct (HasPrefix (String c s) sep); simpl; [split; done|].
    rewrite <- IH. destruct (Index s sep); simpl; split; done.
Qed.

Lemma Index_bound (s sep : string) (p : nat) :
  Index s sep = Some p -> (p + String.length sep <= String.length s)%nat.
Proof.
  revert p. induction s as [|c s IH]; intros p.
  - simpl. destruct sep; simpl; [|done]. intros [= <-]. simpl. lia.
  - simpl. destruct (HasPrefix (String c s) sep) eqn:Hp.
    + intros [= <-]. clear IH. revert c s Hp.
      induction sep as [|d sep IH]; intros c s Hp; simpl; [lia|].
      simpl in Hp. apply andb_prop in Hp as [_ Hp].
      destruct s as [|c' s]; [destruct sep; [simpl; lia|done]|].
      specialize (IH _ _ Hp). simpl in *. lia.
    + destruct (Index s sep) as [p'|]; simpl; [|done]. intros [= <-].
      specialize (IH _ eq_refl). lia.
Qed.

(** The first occurrence of a one-character separator. *)
Lemma Contains_char_cons (c d : ascii) (s : string) :
  Contains (String d s) (String c "") = bool_decide (c = d) || Contains s (String c "").
Proof. simpl. destruct s; by rewrite andb_true_r. Qed.

Lemma Contains_char_app (c : ascii) (a b : string) :
  Contains (a +:+ b) (String c "")
  = Contains a (String c "") || Contains b (String c "").
Proof.
  induction a as [|d a IH]; [by rewrite append_nil|].
  rewrite append_cons, !Contains_char_cons, IH. by rewrite orb_assoc.
Qed.

Lemma Index_char (c : ascii) (a b : string) :
  Contains a (String c "") = false ->
  Index (a +:+ String c b) (String c "") = Some (String.length a).
Proof.
  induction a as [|d a IH]; intros Ha.
  - rewrite append_nil. simpl. by rewrite bool_decide_eq_true_2.
  - rewrite Contains_char_cons in Ha. apply orb_false_elim in Ha as [Hd Ha].
    rewrite append_cons. simpl. rewrite Hd. simpl. by rewrite (IH Ha).
Qed.

(** The first occurrence of the scheme separator: no occurrence can
    begin inside a prefix that has none and end beyond it. *)
Lemma HasPrefix_scheme_sep (a b : string) :
  a <> "" -> HasPrefix a "://" = false ->
  HasPrefix (a +:+ ("://" +:+ b)) "://" = false.
Proof.
  intros Hne Ha.
  destruct a as [|c1 [|c2 [|c3 a]]]; [done| | |].
  - rewrite append_cons, append_nil. simpl.
    destruct (bool_decide (":"%char = c1)); [|done]. done.
  - rewrite !append_cons, append_nil. simpl.
    destruct (bool_decide (":"%char = c1)); [|done].
    destruct (bool_decide ("/"%char = c2)); [|done]. done.
  - rewrite !append_cons. exact Ha.
Qed.

Lemma Index_scheme_sep (a b : string) :
  Contains a "://" = false ->
  Index (a +:+ ("://" +:+ b)) "://" = Some (String.length a).
Proof.
  induction a as [|c a IH]; intros Ha.
  - rewrite append_nil. reflexivity.
  - rewrite Contains_unfold in Ha. apply orb_false_elim in Ha as [Hp Ha].
    assert (Hno := HasPrefix_scheme_sep (String c a) b ltac:(done) Hp).
    rewrite (append_cons c a) in Hno |- *.
    change (Index (String c (a +:+ ("://" +:+ b))) "://")
      with (if HasPrefix (String c (a +:+ ("://" +:+ b))) "://"
            then Some 0%nat
            else S <$> Index (a +:+ ("://" +:+ b)) "://").
    rewrite Hno, (IH Ha). reflexivity.
Qed.

End StringsFacts.

(** ** Facts about configuration URLs *)

Section SplitFacts.
Import Text Strings.

Lemma HasPrefix_split (s sep : string) :
  HasPrefix s sep = true -> s = sep +:+ from (String.length sep) s.
Proof.
  revert s. induction sep as [|c sep IH]; intros s H; [by destruct s|].
  destruct s as [|d s]; [done|]. simpl in H.
  apply andb_prop in H as [Hc H]. apply bool_decide_eq_true in Hc as ->.
  rewrite append_cons. simpl. by rewrite <- (IH s H).
Qed.

Lemma HasPrefix_upto (n : nat) (s sep : string) :
  HasPrefix (upto n s) sep = true -> HasPrefix s sep = true.
Proof.
  revert n s. induction sep as [|c sep IH]; intros n s H; [done|].
  destruct n as [|n], s as [|d s]; try done. simpl in *.
  apply andb_prop in H as [-> H]. simpl. by apply (IH n).
Qed.

Lemma Contains_upto (n : nat) (s sep : string) :
  Contains (upto n s) sep = true -> Contains s sep = true.
Proof.
  revert n. induction s as [|d s IH]; intros n H.
  - by destruct n.
  - destruct n as [|n].
    + simpl in H. rewrite orb_false_r in H.
      rewrite Contains_unfold. destruct sep; [done|done].
    + rewrite Contains_unfold in H. rewrite Contains_unfold.
      apply orb_prop in H as [H|H].
      * by rewrite (HasPrefix_upto (S n) (String d s) sep H).
      * simpl in H. rewrite (IH n H). apply orb_true_r.
Qed.

(** [Index] finds the first occurrence: the text splits there, and the
    part before it holds no occurrence of a non-empty separator. *)
Lemma Index_Some_split (s sep : string) (p : nat) :
  sep <> "" ->
  Index s sep = Some p ->
  s = upto p s +:+ sep +:+ from (p + String.length sep) s
  /\ Contains (upto p s) sep = false
  /\ String.length (upto p s) = p.
Proof.
  intros Hsep. revert p. induction s as [|c s IH]; intros p.
  - simpl. destruct sep; [done|]. done.
  - simpl. destruct (HasPrefix (String c s) sep) eqn:Hp.
    + intros [= <-]. rewrite append_nil. split; [by apply HasPrefix_split|].
      split; [|done]. destruct sep; done.
    + destruct (Index s sep) as [p'|]; simpl; [|done]. intros [= <-].
      destruct (IH p' eq_refl) as (Hs & Hc & Hl). cbn [upto from Nat.add].
      rewrite append_cons, <- Hs. split; [done|].
      split; [|cbn [String.length]; by rewrite Hl].
      rewrite (Contains_unfold (String c (upto p' s))), Hc, orb_false_r.
      destruct (HasPrefix (String c (upto p' s)) sep) eqn:Hp'; [|done].
      by rewrite (HasPrefix_upto (S p') (String c s) sep Hp') in Hp.
Qed.

End SplitFacts.


Section ConfigFacts.
Import Text Strings Config.

Variable QErr : Type.
Variable ParseQuery : string -> QErr + gmap string (list string).
Variable QueryEscape : string -> string.

Local Abbreviation parseURL := (Config.parseURL QErr ParseQuery).

Lemma Contains_char_app_l (c : ascii) (a b : string) :
  Contains (a +:+ b) (String c "") = false -> Contains a (String c "") = false.
Proof. rewrite Contains_char_app. by intros [? _]%orb_false_elim. Qed.

Lemma append_nil_r (a : string) : a +:+ "" = a.
Proof. induction a as [|c a IH]; [done|]. by rewrite append_cons, IH. Qed.

(** X9. [parseURL] reports an invalid configuration URL exactly when
    the text holds no scheme separator, and [MustParseURL] then
    panics. When it succeeds, the scheme is the text before the first
    separator, and the value begins right after that separator and
    holds neither a question mark nor a hash sign. *)
Theorem parseURL_scheme (s : string) :
  (parseURL s = Return (inl (ErrInvalidURL QErr s)) <-> Contains s "://" = false)
  /\ (Contains s "://" = false -> MustParseURL QErr ParseQuery s = Panic)
  /\ (forall u, parseURL s = Return (inr u) ->
        Contains (Scheme u) "://" = false
        /\ Contains (Value u) "?" = false
        /\ Contains (Value u) "#" = false
        /\ exists rest, s = Scheme u +:+ "://" +:+ Value u +:+ rest).
Proof.
  split_and!.
  - rewrite <- Index_None_iff. unfold Config.parseURL.
    destruct (Index s "://") as [p|]; [|done].
    split; [|done]. intros H. exfalso. revert H.
    destruct (Index (from (p + 3) s) "#") as [f|].
    + destruct (ParseQuery _) as [err|val]; [done|].
      destruct (lastValues val) as [fragment|]; [|done]. simpl.
      destruct (Index _ "?") as [q|]; [|done].
      destruct (ParseQuery _) as [err|val']; [done|].
      by destruct (lastValues val').
    + destruct (Index _ "?") as [q|]; [|done].
      destruct (ParseQuery _) as [err|val']; [done|].
      by destruct (lastValues val').
  - intros H. apply Index_None_iff in H.
    unfold MustParseURL, ParseURL, Config.parseURL. by rewrite H.
  - intros u. unfold Config.parseURL.
    destruct (Index s "://") as [p|] eqn:Hp; [|done].
    destruct (Index_Some_split s "://" p ltac:(done) Hp) as (Hs & Hsch & _).
    set (value := from (p + 3) s) in *.
    change (String.length "://") with 3%nat in Hs. fold value in Hs.
    destruct (Index value "#") as [f|] eqn:Hf.
    + destruct (Index_Some_split value "#" f ltac:(done) Hf) as (Hv & Hhash & _).
      destruct (ParseQuery (from (f + 1) value)) as [err|val]; [done|].
      destruct (lastValues val) as [fragment|]; [|done]. simpl.
      set (value0 := upto f value) in *.
      destruct (Index value0 "?") as [q|] eqn:Hq.
      * destruct (Index_Some_split value0 "?" q ltac:(done) Hq) as (Hv0 & Hqm & _).
        destruct (ParseQuery (from (q + 1) value0)) as [err|val']; [done|].
        destruct (lastValues val') as [query|]; [|done]. simpl.
        intros [= <-]. simpl. split_and!; try done.
        -- rewrite Hv0 in Hhash. by apply Contains_char_app_l in Hhash.
        -- exists ("?" +:+ from (q + 1) value0 +:+ "#" +:+ from (f + 1) value).
           rewrite Hs at 1. do 2 f_equal.
           rewrite Hv at 1. fold value0. rewrite Hv0 at 1.
           by rewrite !append_assoc.
      * intros [= <-]. simpl. split_and!; try done.
        -- by apply Index_None_iff.
        -- exists ("#" +:+ from (f + 1) value).
           rewrite Hs at 1. do 2 f_equal. by rewrite Hv at 1.
    + destruct (Index value "?") as [q|] eqn:Hq.
      * destruct (Index_Some_split value "?" q ltac:(done) Hq) as (Hv0 & Hqm & _).
        destruct (ParseQuery (from (q + 1) value)) as [err|val']; [done|].
        destruct (lastValues val') as [query|]; [|done]. simpl.
        intros [= <-]. simpl. split_and!; try done.
        -- apply Index_None_iff in Hf. rewrite Hv0 in Hf.
           by apply Contains_char_app_l in Hf.
        -- exists ("?" +:+ from (q + 1) value).
           rewrite Hs at 1. do 2 f_equal. by rewrite Hv0 at 1.
      * intros [= <-]. simpl. split_and!; try done.
        -- by apply Index_None_iff.
        -- by apply Index_None_iff.
        -- exists "". rewrite Hs at 1. f_equal. f_equal. by rewrite append_nil_r.
Qed.


Lemma from_scheme_sep (r : string) : from 3 ("://" +:+ r) = r.
Proof. reflexivity. Qed.

Lemma from_char (c : ascii) (r : string) : from 1 (String c r) = r.
Proof. reflexivity. Qed.

Lemma append_char (c : ascii) (r : string) : String c "" +:+ r = String c r.
Proof. reflexivity. Qed.

(** The four shapes of a configuration URL. *)
Lemma parseURL_plain (scheme v : string) :
  Contains scheme "://" = false ->
  Contains v "?" = false -> Contains v "#" = false ->
  parseURL (scheme +:+ "://" +:+ v)
  = Return (inr {| Scheme := scheme; Value := v; Query := ∅; Fragment := ∅ |}).
Proof.
  intros Hs Hq Hh. unfold Config.parseURL.
  rewrite (Index_scheme_sep scheme v Hs), upto_append, from_append.
  rewrite ?from_scheme_sep, ?from_char.
  apply Index_None_iff in Hq, Hh. by rewrite Hh, Hq.
Qed.

(** X10. How [parseURL] splits a text with a scheme, a value, a query
    and a fragment: the fragment is cut off first, at the first hash
    sign, and only then the query, at the first question mark before
    it; so the query is the text between the two, a question mark
    inside the fragment separates nothing, and an error in the
    fragment is reported before one in the query. Each map holds, and
    [Get] returns, the last value [url.ParseQuery] lists for a key;
    for a key it does not list, [Get] returns the empty string. *)
Theorem parseURL_parts (scheme v q f : string) :
  Contains scheme "://" = false ->
  Contains v "?" = false ->
  Contains v "#" = false ->
  Contains q "#" = false ->
  parseURL (scheme +:+ "://" +:+ v +:+ "?" +:+ q +:+ "#" +:+ f)
  = match ParseQuery f with
    | inl err => Return (inl (ErrQuery QErr err))
    | inr fv =>
        fragment ← lastValues fv;
        match ParseQuery q with
        | inl err => Return (inl (ErrQuery QErr err))
        | inr qv =>
            query ← lastValues qv;
            Return (inr {| Scheme := scheme; Value := v;
                           Query := query; Fragment := fragment |})
        end
    end
  /\ parseURL (scheme +:+ "://" +:+ v +:+ "#" +:+ f)
     = match ParseQuery f with
       | inl err => Return (inl (ErrQuery QErr err))
       | inr fv =>
           fragment ← lastValues fv;
           Return (inr {| Scheme := scheme; Value := v;
                          Query := ∅; Fragment := fragment |})
       end
  /\ parseURL (scheme +:+ "://" +:+ v +:+ "?" +:+ q)
     = match ParseQuery q with
       | inl err => Return (inl (ErrQuery QErr err))
       | inr qv =>
           query ← lastValues qv;
           Return (inr {| Scheme := scheme; Value := v;
                          Query := query; Fragment := ∅ |})
       end
  /\ (forall val m k,
        lastValues val = Return m ->
        m !! k = val !! k ≫= last
        /\ Get m k = default "" (val !! k ≫= last)).
Proof.
  intros Hs Hvq Hvh Hqh. split_and!.
  - unfold Config.parseURL.
    rewrite (Index_scheme_sep scheme _ Hs), upto_append, from_append.
    rewrite ?from_scheme_sep, ?from_char.
    assert (Hh : Contains (v +:+ "?" +:+ q) "#" = false).
    { rewrite !Contains_char_app, Hvh, Hqh. done. }
    replace (v +:+ "?" +:+ q +:+ "#" +:+ f)
      with ((v +:+ "?" +:+ q) +:+ String "#" f)
      by (by rewrite !append_assoc).
    rewrite (Index_char "#" _ f Hh), upto_append, from_append. rewrite ?from_scheme_sep, ?from_char.
    destruct (ParseQuery f) as [err|fv]; [done|].
    destruct (lastValues fv) as [fragment|]; [|done]. simpl.
    rewrite (append_char "?"), (Index_char "?" v _ Hvq), upto_append, from_append. rewrite ?from_scheme_sep, ?from_char.
    done.
  - unfold Config.parseURL.
    rewrite (Index_scheme_sep scheme _ Hs), upto_append, from_append.
    rewrite ?from_scheme_sep, ?from_char.
    rewrite (append_char "#"), (Index_char "#" v f Hvh), upto_append, from_append. rewrite ?from_scheme_sep, ?from_char.
    destruct (ParseQuery f) as [err|fv]; [done|].
    destruct (lastValues fv) as [fragment|]; [|done]. simpl.
    apply Index_None_iff in Hvq. by rewrite Hvq.
  - unfold Config.parseURL.
    rewrite (Index_scheme_sep scheme _ Hs), upto_append, from_append.
    rewrite ?from_scheme_sep, ?from_char.
    assert (Hh : Index (v +:+ "?" +:+ q) "#" = None).
    { apply Index_None_iff. rewrite !Contains_char_app, Hvh, Hqh. done. }
    rewrite Hh.
    rewrite (append_char "?"), (Index_char "?" v _ Hvq), upto_append, from_append. rewrite ?from_scheme_sep, ?from_char.
    done.
  - intros val m k. unfold lastValues, Get. case_bool_decide; [|done].
    intros [= <-]. split; [apply lookup_omap|].
    f_equal. apply lookup_omap.
Qed.

(** Every encoded entry holds an equals sign, so the text of a map is
    empty only for the empty map. *)
Lemma Join_nil_iff (l : list string) (sep : string) :
  Forall (fun x => x <> "") l -> (Join l sep = "" <-> l = []).
Proof.
  intros Hl. destruct l as [|x l]; [done|]. split; [|done].
  inversion Hl as [|? ? Hx _]; subst.
  destruct l as [|y l]; simpl; [done|].
  destruct x; [done|]. by rewrite append_cons.
Qed.

Lemma Map_String_nil_iff (m : Map) (out : string) :
  Map_String QueryEscape m out -> (out = "" <-> m = ∅).
Proof.
  intros (entries & Hperm & ->). unfold encode. unfold Map in *.
  rewrite Join_nil_iff.
  - split.
    + intros H. destruct entries; [|done].
      symmetry in Hperm. apply Permutation_nil_r in Hperm.
      by apply map_to_list_empty_iff.
    + intros ->. rewrite map_to_list_empty in Hperm.
      by apply Permutation_nil_r in Hperm as ->.
  - apply Forall_fmap, Forall_forall. intros kv _. unfold pair_. simpl.
    destruct (QueryEscape kv.1); [by rewrite append_nil|by rewrite append_cons].
Qed.

Lemma Map_String_total (m : Map) : exists out, Map_String QueryEscape m out.
Proof. exists (encode QueryEscape (map_to_list m)). by exists (map_to_list m). Qed.

Lemma append_inj_nil (a b : string) : a +:+ b = a -> b = "".
Proof.
  induction a as [|c a IH]; [by rewrite append_nil|].
  rewrite append_cons. intros [= H]. by apply IH.
Qed.

(** X11. [ValueAndQuery] returns the value alone exactly when the
    query map is empty, and otherwise the value, a question mark and
    the non-empty encoded query, in whatever order the entries are
    visited: its test of the encoded text against the empty string
    agrees with the test of the map's length in [String]. *)
Theorem ValueAndQuery_empty_iff (u : URL) :
  (exists out, ValueAndQuery QueryEscape u out)
  /\ (forall out, ValueAndQuery QueryEscape u out ->
        (out = Value u <-> Query u = ∅)
        /\ (Query u <> ∅ ->
              exists q, q <> "" /\ Map_String QueryEscape (Query u) q
                        /\ out = Value u +:+ "?" +:+ q)).
Proof.
  split.
  - destruct (Map_String_total (Query u)) as [q Hq]. eexists. by exists q.
  - intros out (q & Hq & ->). pose proof (Map_String_nil_iff _ _ Hq) as Hnil.
    unfold valueAndQuery. case_bool_decide as Hne.
    + split.
      * split.
        -- intros H%append_inj_nil. done.
        -- intros H%Hnil. done.
      * intros _. by exists q.
    + split; [by split; [intros _; apply Hnil|]|].
      intros H. by apply Hnil in Hne.
Qed.

(** X12. A text made of a scheme, the separator and a value without
    question mark or hash sign parses into a URL with empty query and
    fragment; [String] gives the text back when the scheme is not
    empty. With an empty scheme [String] drops the separator as well,
    and its result is then no configuration URL any more unless the
    value has a separator of its own. *)
Theorem parseURL_String (scheme v : string) :
  Contains scheme "://" = false ->
  Contains v "?" = false ->
  Contains v "#" = false ->
  exists u,
    ParseURL QErr ParseQuery (scheme +:+ "://" +:+ v) = Return (inr u)
    /\ u = {| Scheme := scheme; Value := v; Query := ∅; Fragment := ∅ |}
    /\ (scheme <> "" ->
          forall out, URL_String QueryEscape u out <-> out = scheme +:+ "://" +:+ v)
    /\ (scheme = "" ->
          (forall out, URL_String QueryEscape u out <-> out = v)
          /\ (Contains v "://" = false ->
                ParseURL QErr ParseQuery v = Return (inl (ErrInvalidURL QErr v)))).
Proof.
  intros Hs Hq Hh. eexists. split; [by apply parseURL_plain|].
  split; [reflexivity|].
  assert (Hstr : forall out,
            URL_String QueryEscape
              {| Scheme := scheme; Value := v; Query := ∅; Fragment := ∅ |} out
            <-> out = if bool_decide (scheme <> "")
                      then scheme +:+ "://" +:+ v else v).
  { intros out. unfold URL_String, render. simpl. unfold Map.
    rewrite !map_size_empty. simpl. split.
    - by intros (q & f & _ & _ & ->).
    - intros ->. exists "", "". split_and!; try done; by exists []. }
  split.
  - intros Hne out. by rewrite Hstr, bool_decide_eq_true_2.
  - intros ->. split.
    + intros out. by rewrite Hstr.
    + intros Hno. unfold ParseURL, Config.parseURL.
      apply Index_None_iff in Hno. by rewrite Hno.
Qed.

End ConfigFacts.

(** ** Facts about the debug storage *)

Section DebugFacts.
Import App.

Variable Dyn : Type.

(** X13. What [storeDebug] stores under a name, [getDebug] returns for
    that name, also when the storage was still the nil map, which
    [storeDebug] then allocates; the values under all other names stay
    as they were. [getDebug] on a nil map returns nil for every
    name. *)
Theorem getDebug_storeDebug (name : string) (val : option Dyn) (c : Context Dyn) :
  getDebug Dyn name (storeDebug Dyn name val c) = val
  /\ (forall other, other <> name ->
        getDebug Dyn other (storeDebug Dyn name val c) = getDebug Dyn other c)
  /\ debugStorage Dyn (storeDebug Dyn name val c) <> None
  /\ (debugStorage Dyn c = None -> forall other, getDebug Dyn other c = None).
Proof.
  unfold getDebug, storeDebug. simpl. split_and!.
  - by rewrite lookup_insert_eq.
  - intros other Hne. rewrite lookup_insert_ne by done.
    destruct (debugStorage Dyn c); [done|]. by rewrite lookup_empty.
  - done.
  - by intros ->.
Qed.

End DebugFacts.

(** ** Facts about page tokens *)

Section AccountTokenFacts.
Import Facebook.

Variable GErr : Type.
Variable GraphGet : string -> string -> GErr + option (list Item).

(** An element the loop passes over: an object whose [id] is a string
    other than the account wanted. *)
Local Abbreviation passed accountId :=
  (fun v => exists account id,
     v = JObject account /\ account !! "id" = Some (JString id) /\ id <> accountId).

Lemma findKey_first (pre post : list Item) (account : gmap string Json)
    (accountId key : string) :
  Forall (passed accountId) pre ->
  account !! "id" = Some (JString accountId) ->
  account !! "access_token" = Some (JString key) ->
  findKey (pre ++ JObject account :: post) accountId = Return key.
Proof.
  intros Hpre Hid Hkey. induction Hpre as [|v pre (acc & id & -> & Hi & Hne) _ IH].
  - simpl. by rewrite Hid, bool_decide_eq_true_2, Hkey.
  - simpl. by rewrite Hi, bool_decide_eq_false_2.
Qed.

Lemma findKey_none (data : list Item) (accountId : string) :
  Forall (passed accountId) data -> findKey data accountId = Return "".
Proof.
  induction 1 as [|v data (acc & id & -> & Hi & Hne) _ IH]; [done|].
  simpl. by rewrite Hi, bool_decide_eq_false_2.
Qed.

(** X14. [AccountToken] stops at the first account of the list whose
    [id] is the one wanted: it returns that account's access token
    with the expiry time of the main token, and never looks at what
    follows, be it another account with the same [id] or an element
    that is no object. When that first match has an empty access
    token, or when no account of a well-formed list has the [id], it
    reports that no token was found. *)
Theorem AccountToken_first_match (token : Token) (accountId : string)
    (pre post : list Item) (account : gmap string Json) (key : string) :
  GraphGet "/me/accounts" (Key token)
  = inr (Some (pre ++ JObject account :: post)) ->
  Forall (passed accountId) pre ->
  account !! "id" = Some (JString accountId) ->
  account !! "access_token" = Some (JString key) ->
  AccountToken GErr GraphGet token accountId
  = Return (if bool_decide (key = "")
            then inl (ErrNoToken GErr accountId)
            else inr {| Key := key; Expires := Expires token |}).
Proof.
  intros Hget Hpre Hid Hkey. unfold AccountToken. rewrite Hget.
  rewrite (findKey_first pre post account accountId key Hpre Hid Hkey). simpl.
  by case_bool_decide.
Qed.

Lemma findKey_sound (data : list Item) (accountId key : string) :
  findKey data accountId = Return key ->
  key <> "" ->
  exists pre account post,
    data = pre ++ JObject account :: post
    /\ Forall (passed accountId) pre
    /\ account !! "id" = Some (JString accountId)
    /\ account !! "access_token" = Some (JString key).
Proof.
  intros Hfind Hne. induction data as [|v data IH]; [by injection Hfind as <-|].
  destruct v as [account|]; [|done]. simpl in Hfind.
  destruct (account !! "id") as [[id|]|] eqn:Hid; try done.
  case_bool_decide as Heq.
  - subst id. destruct (account !! "access_token") as [[k|]|] eqn:Hk; try done.
    injection Hfind as ->. by exists [], account, data.
  - destruct (IH Hfind) as (pre & acc & post & -> & Hpre & Hi & Hk).
    exists (JObject account :: pre), acc, post. split_and!; try done.
    constructor; [|done]. by exists account, id.
Qed.

(** X15. A token [AccountToken] returns has a non-empty key, which is
    the access token of the first account of the response with the
    [id] wanted, and expires with the main token. When no element of a
    well-formed list of accounts has that [id], [AccountToken] reports
    that no token was found. *)
Theorem AccountToken_sound (token : Token) (accountId : string) :
  (forall page,
     AccountToken GErr GraphGet token accountId = Return (inr page) ->
     Key page <> "" /\ Expires page = Expires token
     /\ exists pre account post,
          GraphGet "/me/accounts" (Key token)
          = inr (Some (pre ++ JObject account :: post))
          /\ Forall (passed accountId) pre
          /\ account !! "id" = Some (JString accountId)
          /\ account !! "access_token" = Some (JString (Key page)))
  /\ (forall data,
        GraphGet "/me/accounts" (Key token) = inr (Some data) ->
        Forall (passed accountId) data ->
        AccountToken GErr GraphGet token accountId
        = Return (inl (ErrNoToken GErr accountId))).
Proof.
  unfold AccountToken. split.
  - intros page.
    destruct (GraphGet "/me/accounts" (Key token)) as [err|[data|]]; try done.
    destruct (findKey data accountId) as [key|] eqn:Hfind; [|done]. simpl.
    case_bool_decide as Hne; [done|]. intros [= <-]. simpl.
    split; [done|]. split; [done|].
    destruct (findKey_sound data accountId key Hfind Hne)
      as (pre & account & post & -> & ?). by exists pre, account, post.
  - intros data -> Hall. by rewrite (findKey_none data accountId Hall).
Qed.

End AccountTokenFacts.

(** Instances of the further theorems on concrete inputs. *)

Lemma Scan_frame_witness :
  exists st',
    Sql.Scan (fun _ => "") 7 (Some (Go.VInt Go.W64 5)) Sql.demo = Return (None, st')
    /\ Sql.objs st' = Sql.objs Sql.demo
    /\ Sql.vars st' !! 2%nat = Sql.vars Sql.demo !! 2%nat.
Proof.
  eexists. split; [reflexivity|].
  destruct (Scan_frame (fun _ => "") 7 (Some (Go.VInt Go.W64 5)) Sql.demo _ None
              eq_refl) as (Ho & _ & _ & Hv & _).
  split; [exact Ho|].
  apply (Hv {| Sql.Out := 1; Sql.Tag := Sql.noTag |}); [reflexivity | discriminate].
Defined.


Lemma Scan_int64_truncates_witness :
  exists st',
    Sql.Scan (fun _ => "") 7 (Some (Go.VInt Go.W64 4294967301)) Sql.demo
    = Return (None, st')
    /\ Sql.vars st' !! 1%nat = Some (Go.VInt Go.W32 5).
Proof.
  destruct (Scan_int64_truncates (fun _ => "") 7 Sql.demo
              {| Sql.Out := 1; Sql.Tag := Sql.noTag |} (Go.VInt Go.W32 7)
              Go.W32 4294967301 eq_refl eq_refl eq_refl)
    as (st' & Hr & Hv & _).
  exists st'. split; [exact Hr | exact Hv].
Defined.

Lemma Put_then_Scanner_witness :
  exists st',
    Sql.Scanner 3 Sql.rawTag (Sql.Put 7 Sql.demo) = Return (7%nat, st')
    /\ Sql.objs st' !! 7%nat = Some {| Sql.Out := 3; Sql.Tag := Sql.rawTag |}.
Proof.
  assert (Hok : Sql.pool_ok Sql.demo).
  { split; [reflexivity|]. split; [simpl; lia | constructor]. }
  destruct (Put_then_Scanner 3 Sql.rawTag 7 Sql.demo Hok)
    as (s' & st' & Hr & Hhd & _ & Ho & _).
  - simpl. lia.
  - by eexists.
  - injection Hhd as <-. by exists st'.
Defined.

Lemma reachable_pool_ok_witness :
  exists s st1,
    Sql.Scanner 1 Sql.noTag Sql.init = Return (s, st1)
    /\ SqlRun.reachable (fun _ => "") (Sql.Put s st1)
    /\ Sql.pool_ok (Sql.Put s st1).
Proof.
  eexists _, _. split; [reflexivity|].
  assert (Hr : SqlRun.reachable (fun _ => "")
                 (Sql.Put (fresh (dom (Sql.objs Sql.init)))
                    (Sql.set_objs Sql.init
                       (<[fresh (dom (Sql.objs Sql.init)) :=
                            {| Sql.Out := 1; Sql.Tag := Sql.noTag |}]>
                          (Sql.objs Sql.init))))).
  { eapply rtc_l; [eapply (SqlRun.step_Scanner _ 1 Sql.noTag); reflexivity|].
    eapply rtc_l; [|apply rtc_refl].
    apply SqlRun.step_Put. simpl. rewrite lookup_insert_eq. by eexists. }
  split; [exact Hr|].
  apply (reachable_pool_ok (fun _ => "") _ Hr).
Defined.

Lemma Put_twice_aliases_witness :
  exists st1 st2,
    Sql.Scanner 1 Sql.noTag (Sql.Put 7 (Sql.Put 7 Sql.demo)) = Return (7%nat, st1)
    /\ Sql.Scanner 2 Sql.rawTag st1 = Return (7%nat, st2)
    /\ Sql.objs st2 !! 7%nat = Some {| Sql.Out := 2; Sql.Tag := Sql.rawTag |}.
Proof.
  assert (Hok : Sql.pool_ok Sql.demo).
  { split; [reflexivity|]. split; [simpl; lia | constructor]. }
  destruct (Put_twice_aliases 1 2 Sql.noTag Sql.rawTag 7 Sql.demo Hok eq_refl)
    as (st1 & st2 & H1 & _ & H2 & Ho).
  - by eexists.
  - by exists st1, st2.
Defined.

Lemma Put_nil_then_Scanner_witness :
  Sql.objs Sql.demo !! 99%nat = None
  /\ Sql.Scanner 1 Sql.noTag (Sql.Put 99 Sql.demo) = Panic.
Proof.
  assert (Hok : Sql.pool_ok Sql.demo).
  { split; [reflexivity|]. split; [simpl; lia | constructor]. }
  split; [reflexivity|].
  apply (Put_nil_then_Scanner 1 Sql.noTag 99 Sql.demo Hok eq_refl eq_refl).
Defined.

Lemma Scanner_Scan_Put_witness :
  exists s st1 st2,
    Sql.Scanner 1 Sql.noTag Sql.demo = Return (s, st1)
    /\ Sql.Scan (fun _ => "") s (Some (Go.VInt Go.W64 5)) st1 = Return (None, st2)
    /\ Sql.vars st2 !! 1%nat = Some (Go.VInt Go.W32 5).
Proof.
  assert (Hok : Sql.pool_ok Sql.demo).
  { split; [reflexivity|]. split; [simpl; lia | constructor]. }
  destruct (Scanner_Scan_Put (fun _ => "") 1 Sql.noTag 5 Sql.demo
              (Go.VInt Go.W32 7) Go.W32 Hok eq_refl eq_refl)
    as (s & st1 & st2 & H1 & H2 & Hv & _).
  - simpl. lia.
  - by exists s, st1, st2.
Defined.

Lemma testEvent_panics_iff_witness :
  ReferencesTest.testEvent
    (Some {| ReferencesTest.Id := 1; ReferencesTest.Timestamp := 1;
             ReferencesTest.Name := "E3" |}) (-1) = Panic.
Proof.
  apply (testEvent_panics_iff _ (-1)); lia.
Defined.

Lemma parseURL_parts_witness :
  Config.parseURL unit (fun _ => inr ∅) "postgres://db?user=u#pool=1"
  = Return (inr {| Config.Scheme := "postgres"; Config.Value := "db";
                   Config.Query := ∅; Config.Fragment := ∅ |}).
Proof.
  destruct (parseURL_parts unit (fun _ => inr ∅) "postgres" "db" "user=u" "pool=1"
              eq_refl eq_refl eq_refl eq_refl) as (H & _).
  exact H.
Defined.

Lemma parseURL_String_witness :
  exists u,
    Config.ParseURL unit (fun _ => inr ∅) "mem://cache" = Return (inr u)
    /\ Config.URL_String (fun s => s) u "mem://cache".
Proof.
  destruct (parseURL_String unit (fun _ => inr ∅) (fun s => s) "mem" "cache"
              eq_refl eq_refl eq_refl) as (u & Hp & _ & Hs & _).
  exists u. split; [exact Hp|]. apply Hs; [discriminate | reflexivity].
Defined.

Lemma AccountToken_first_match_witness :
  Facebook.AccountToken unit
    (fun _ _ => inr (Some [Facebook.JObject
                             {[ "id" := Facebook.JString "42";
                                "access_token" := Facebook.JString "k" ]};
                           Facebook.JNotObject]))
    {| Facebook.Key := "main"; Facebook.Expires := 9 |} "42"
  = Return (inr {| Facebook.Key := "k"; Facebook.Expires := 9 |}).
Proof.
  exact (AccountToken_first_match unit
           (fun _ _ => inr (Some [Facebook.JObject
                                    {[ "id" := Facebook.JString "42";
                                       "access_token" := Facebook.JString "k" ]};
                                  Facebook.JNotObject]))
           {| Facebook.Key := "main"; Facebook.Expires := 9 |} "42" []
           [Facebook.JNotObject]
           {[ "id" := Facebook.JString "42";
              "access_token" := Facebook.JString "k" ]} "k"
           eq_refl (Forall_nil_2 _) eq_refl eq_refl).
Defined.

Lemma Scanner_allocates_iff_witness :
  exists s st',
    Sql.Scanner 1 Sql.noTag Sql.demo = Return (s, st')
    /\ (s ∉ dom (Sql.objs Sql.demo))
    /\ dom (Sql.objs st') = {[ s ]} ∪ dom (Sql.objs Sql.demo).
Proof.
  assert (Hok : Sql.pool_ok Sql.demo).
  { split; [reflexivity|]. split; [simpl; lia | constructor]. }
  eexists _, _. split; [reflexivity|].
  apply (Scanner_allocates_iff 1 Sql.noTag Sql.demo _ _ Hok eq_refl).
  reflexivity.
Defined.
